(** * Detective Quest: the clue set, the suspect index and the exploration loop

    A shallow embedding of [algoritmos_avancados.c] (the full game: room tree,
    binary search tree of collected clues, chained hash table from clue to
    suspect, exploration loop, final accusation) and of the earlier,
    navigation-only program of the same repository (room tree and exploration
    loop only).

    Conventions of the embedding.
    - A C string is modelled by the [string] of its bytes before the
      terminating NUL; a [const char*] that the code tests against [NULL] is an
      [option string], [None] being [NULL].
    - A pointer to a heap structure that is owned by a single parent (a room,
      a clue node, a hash chain) is modelled by the structure itself: an
      inductive tree with a constructor for [NULL], or a list for a chain.
      A function that updates such a structure in place returns the updated
      structure.
    - [malloc]/[calloc] are assumed to succeed (on failure the program prints
      a diagnostic and calls [exit], so no later state exists).
    - [printf] output is modelled as a list of events, one constructor per
      message of the program. *)

From Stdlib Require Import ZArith String Ascii List Lia Sorted OrdersEx.
From stdpp Require Import base list.
Import ListNotations.

Local Open Scope string_scope.
Local Open Scope list_scope.
Local Open Scope Z_scope.

(** ** C strings *)

(** [strcmp] of <string.h>: the sign of the comparison of the first bytes that
    differ, bytes taken as [unsigned char]; the end of a string is below every
    byte. The C standard fixes the sign of the result only; the model returns
    [-1], [0] or [1]. *)
Definition strcmp (s1 s2 : string) : Z :=
  match String.compare s1 s2 with
  | Eq => 0
  | Lt => -1
  | Gt => 1
  end.

(** ** The binary search tree of collected clues ([NoPista]) *)

(** [NoPista*]: [PistaNULL] is the null pointer, [No p e d] a node with
    [pista = p], [esq = e], [dir = d]. *)
Inductive NoPista : Type :=
| PistaNULL : NoPista
| No (pista : string) (esq dir : NoPista) : NoPista.

(** [inserirPista(raiz, pista)]: returns the (possibly new) root. *)
Fixpoint inserirPista (raiz : NoPista) (pista : option string) : NoPista :=
  match pista with
  | None => raiz
  | Some p =>
      match raiz with
      | PistaNULL => No p PistaNULL PistaNULL
      | No q e d =>
          let cmp := strcmp p q in
          if cmp =? 0 then raiz
          else if cmp <? 0 then No q (inserirPista e pista) d
          else No q e (inserirPista d pista)
      end
  end.

(** [buscaPista(raiz, pista)]: 1 when found, 0 otherwise. *)
Fixpoint buscaPista (raiz : NoPista) (pista : option string) : Z :=
  match raiz, pista with
  | PistaNULL, _ => 0
  | _, None => 0
  | No q e d, Some p =>
      let cmp := strcmp p q in
      if cmp =? 0 then 1
      else if cmp <? 0 then buscaPista e pista
      else buscaPista d pista
  end.

(** [listarPistas(raiz)]: the clue texts in the order in which they are
    printed (each one on a line of its own, as [" - %s\n"]). *)
Fixpoint listarPistas (raiz : NoPista) : list string :=
  match raiz with
  | PistaNULL => []
  | No q e d => listarPistas e ++ q :: listarPistas d
  end.

(** A sequence of calls [raiz = inserirPista(raiz, p)], first call first. *)
Definition inserirPistas (raiz : NoPista) (ps : list (option string)) : NoPista :=
  fold_left inserirPista ps raiz.

(** Every clue stored in a tree satisfies [P]. *)
Fixpoint todas (P : string -> Prop) (raiz : NoPista) : Prop :=
  match raiz with
  | PistaNULL => True
  | No q e d => P q /\ todas P e /\ todas P d
  end.

(** The ordering property of a binary search tree under [strcmp]: every clue
    of the left subtree compares less than the node's clue, every clue of the
    right subtree compares greater, at every node. *)
Fixpoint bst (raiz : NoPista) : Prop :=
  match raiz with
  | PistaNULL => True
  | No q e d =>
      todas (fun x => strcmp x q < 0) e /\
      todas (fun x => strcmp x q > 0) d /\
      bst e /\ bst d
  end.

(** Non-decreasing and increasing order of clue texts under [strcmp]. *)
Definition str_le (a b : string) : Prop := strcmp a b <= 0.
Definition str_lt (a b : string) : Prop := strcmp a b < 0.

(** ** The hash table from clue to suspect ([HashTable]) *)

(** [unsigned long] arithmetic wraps modulo [2^64] (LP64). *)
Definition ULONG_BITS : Z := 64.
Definition wrap_ulong (x : Z) : Z := x mod 2 ^ ULONG_BITS.

(** The byte of a character as [unsigned char]. *)
Definition uchar (c : ascii) : Z := Z.of_N (N_of_ascii c).

(** The loop of [hash_djb2], from the current value of [hash] over the rest of
    the string: [hash = ((hash << 5) + hash) + c]. *)
Fixpoint hash_djb2_loop (hash : Z) (str : string) : Z :=
  match str with
  | EmptyString => hash
  | String c str' =>
      hash_djb2_loop
        (wrap_ulong (wrap_ulong (wrap_ulong (Z.shiftl hash 5) + hash) + uchar c))
        str'
  end.

Definition hash_djb2 (str : string) : Z := hash_djb2_loop 5381 str.

(** One entry of a chain; the chain itself (the [prox] links) is a list. *)
Record HashEntry : Type := mkEntry {
  he_pista : string;
  he_suspeito : string
}.

(** The table: the array of chains and its number of buckets. *)
Record HashTable : Type := mkHash {
  ht_buckets : list (list HashEntry);
  ht_size : Z
}.

(** [criarHash(size)]: [size] empty chains ([calloc]). *)
Definition criarHash (size : Z) : HashTable :=
  {| ht_buckets := replicate (Z.to_nat size) []; ht_size := size |}.

(** [ht->buckets[h]]. The index is below the length of the array for every
    table made by [criarHash] with a positive size; the model reads an empty
    chain elsewhere, where C leaves the read undefined. *)
Definition bucket (ht : HashTable) (h : Z) : list HashEntry :=
  default [] (ht_buckets ht !! Z.to_nat h).

(** The index of the bucket of a clue: [hash_djb2(pista) % ht->size]
    (undefined in C for [size = 0]; no theorem below depends on the value the
    model gives there). *)
Definition indice (ht : HashTable) (pista : string) : Z :=
  hash_djb2 pista mod ht_size ht.

(** The scan of [inserirNaHash] along a chain: [Some] of the chain with the
    suspect of the first entry for [pista] replaced, [None] when the chain
    holds no entry for [pista]. *)
Fixpoint substituir (cur : list HashEntry) (pista suspeito : string)
  : option (list HashEntry) :=
  match cur with
  | [] => None
  | e :: prox =>
      if strcmp (he_pista e) pista =? 0
      then Some ({| he_pista := he_pista e; he_suspeito := suspeito |} :: prox)
      else match substituir prox pista suspeito with
           | Some prox' => Some (e :: prox')
           | None => None
           end
  end.

(** [inserirNaHash(ht, pista, suspeito)]: the table after the call. *)
Definition inserirNaHash (ht : option HashTable) (pista suspeito : option string)
  : option HashTable :=
  match ht, pista, suspeito with
  | Some t, Some p, Some s =>
      let h := indice t p in
      match substituir (bucket t h) p s with
      | Some cur' =>
          Some {| ht_buckets := <[Z.to_nat h := cur']> (ht_buckets t);
                  ht_size := ht_size t |}
      | None =>
          let e := {| he_pista := p; he_suspeito := s |} in
          Some {| ht_buckets := <[Z.to_nat h := e :: bucket t h]> (ht_buckets t);
                  ht_size := ht_size t |}
      end
  | _, _, _ => ht
  end.

(** The scan of [encontrarSuspeito] along a chain. *)
Fixpoint procurar (cur : list HashEntry) (pista : string) : option string :=
  match cur with
  | [] => None
  | e :: prox =>
      if strcmp (he_pista e) pista =? 0 then Some (he_suspeito e)
      else procurar prox pista
  end.

(** [encontrarSuspeito(ht, pista)]: the suspect, [None] for [NULL]. *)
Definition encontrarSuspeito (ht : option HashTable) (pista : option string)
  : option string :=
  match ht, pista with
  | Some t, Some p => procurar (bucket t (indice t p)) p
  | _, _ => None
  end.

(** [liberarHash(ht)]: the entries in the order in which they are freed,
    bucket by bucket. *)
Definition liberarHash (ht : option HashTable) : list HashEntry :=
  match ht with
  | None => []
  | Some t => concat (ht_buckets t)
  end.

(** A sequence of calls [inserirNaHash(ht, pista, suspeito)] on one table,
    first call first. *)
Definition inserirTodasNaHash (ht : option HashTable) (ops : list (string * string))
  : option HashTable :=
  fold_left (fun h op => inserirNaHash h (Some (fst op)) (Some (snd op))) ops ht.

(** The suspect of the most recent pair for [pista] in a sequence of
    (clue, suspect) pairs given first call first; [None] when no pair has that
    clue. This is the mapping the specification asks of the index. *)
Fixpoint maisRecente (ops : list (string * string)) (pista : string) : option string :=
  match ops with
  | [] => None
  | (p, s) :: resto =>
      match maisRecente resto pista with
      | Some s' => Some s'
      | None => if String.eqb p pista then Some s else None
      end
  end.

(** The tables the program can build: a positive number of buckets, and an
    array of that length. *)
Definition tabela_ok (t : HashTable) : Prop :=
  0 < ht_size t /\ length (ht_buckets t) = Z.to_nat (ht_size t).

(** ** The rooms ([Sala]) and the exploration *)

(** [Sala*]: [SalaNULL] is the null pointer. *)
Inductive Sala : Type :=
| SalaNULL : Sala
| MkSala (nome : string) (esq dir : Sala) : Sala.

(** [criarSala(nome)]: a room without children. *)
Definition criarSala (nome : string) : Sala := MkSala nome SalaNULL SalaNULL.

(** [liberarSalas(raiz)]: the names of the rooms in the order in which they
    are freed (post-order). *)
Fixpoint liberarSalas (raiz : Sala) : list string :=
  match raiz with
  | SalaNULL => []
  | MkSala nome e d => liberarSalas e ++ liberarSalas d ++ [nome]
  end.

(** [getPistaParaSala(nomeSala)]: the clue of a room, [None] for [NULL]. *)
Definition getPistaParaSala (nomeSala : option string) : option string :=
  match nomeSala with
  | None => None
  | Some n =>
      if strcmp n "Hall de Entrada" =? 0 then Some "pegada molhada"
      else if strcmp n "Sala de Estar" =? 0 then Some "fio de cabelo"
      else if strcmp n "Biblioteca" =? 0 then Some "bilhete rasgado"
      else if strcmp n "Jardim de Inverno" =? 0 then Some "marca de luva"
      else if strcmp n "Cozinha" =? 0 then Some "cheiro de queimado"
      else if strcmp n "Despensa" =? 0 then Some "chave estranha"
      else if strcmp n "Porão" =? 0 then Some "mancha de tinta"
      else if strcmp n "Quarto Principal" =? 0 then Some "anel riscado"
      else if strcmp n "Escritório" =? 0 then Some "nota de dívida"
      else None
  end.

(** The messages of [explorarSalas], one constructor per [printf]. *)
Inductive Evento : Type :=
| EvSala (nome : string)             (* "Você está na sala: %s" *)
| EvPistaEncontrada (pista : string) (* "Pista encontrada: ..." *)
| EvSuspeito (suspeito : string)     (* "-> Esta pista aponta para o(a) suspeito(a): %s" *)
| EvSemSuspeito                      (* "-> Nenhum suspeito associado a esta pista." *)
| EvJaColetada                       (* "Você já coletou esta pista antes." *)
| EvSemPista                         (* "Nenhuma pista encontrada nesta sala." *)
| EvFolha                            (* "Esta sala não tem caminhos adicionais (nó-folha)." *)
| EvMenu (esq dir : option string)   (* "Para onde deseja ir?", one line per existing child,
                                        " s - Sair da exploração", "Escolha: " *)
| EvEntradaInvalida                  (* "Entrada inválida. Saindo da exploração." *)
| EvSemEsquerda                      (* "Não existe caminho à esquerda." *)
| EvSemDireita                       (* "Não existe caminho à direita." *)
| EvSaindo                           (* "Saindo da exploração..." *)
| EvOpcaoInvalida.                   (* "Opção inválida. Tente novamente." *)

(** The name of the room a child pointer leads to, [None] for [NULL]. *)
Definition nomeDe (s : Sala) : option string :=
  match s with
  | SalaNULL => None
  | MkSala nome _ _ => Some nome
  end.

(** [node->esq == NULL && node->dir == NULL]. *)
Definition semFilhos (e d : Sala) : bool :=
  match e, d with
  | SalaNULL, SalaNULL => true
  | _, _ => false
  end.

(** The first part of the loop body of [explorarSalas], up to the prompt, for
    the room [nome] with children [e] and [d]: the room header, the clue step,
    the leaf notice and the menu. Returns [*raizPistas] and the messages. *)
Definition visitarSala (nome : string) (e d : Sala) (raizPistas : NoPista)
  (ht : option HashTable) : NoPista * list Evento :=
  let '(raiz1, pistaMsgs) :=
    match getPistaParaSala (Some nome) with
    | Some pista =>
        if buscaPista raizPistas (Some pista) =? 0 then
          (inserirPista raizPistas (Some pista),
           [EvPistaEncontrada pista;
            match encontrarSuspeito ht (Some pista) with
            | Some s => EvSuspeito s
            | None => EvSemSuspeito
            end])
        else (raizPistas, [EvPistaEncontrada pista; EvJaColetada])
    | None => (raizPistas, [EvSemPista])
    end in
  (raiz1,
   EvSala nome :: pistaMsgs
     ++ (if semFilhos e d then [EvFolha] else [])
     ++ [EvMenu (nomeDe e) (nomeDe d)]).

(** Where the loop goes after a choice: on with [node], or out of the
    function. *)
Inductive Destino : Type :=
| Continua (node : Sala)
| Retorna.

(** The second part of the loop body, after a character [op] was read at the
    room [nome] with children [e] and [d]. *)
Definition escolher (nome : string) (e d : Sala) (op : ascii)
  : Destino * list Evento :=
  if (op =? "e")%char || (op =? "E")%char then
    match e with
    | SalaNULL => (Continua (MkSala nome e d), [EvSemEsquerda])
    | MkSala _ _ _ => (Continua e, [])
    end
  else if (op =? "d")%char || (op =? "D")%char then
    match d with
    | SalaNULL => (Continua (MkSala nome e d), [EvSemDireita])
    | MkSala _ _ _ => (Continua d, [])
    end
  else if (op =? "s")%char || (op =? "S")%char then (Retorna, [EvSaindo])
  else (Continua (MkSala nome e d), [EvOpcaoInvalida]).

(** [explorarSalas(atual, &raizPistas, ht)] on the input [entrada]: one
    character per successful [scanf(" %c", &op)] (the rest of its line is
    discarded), the end of the list being the end of the input, where [scanf]
    fails. Returns the final [*raizPistas] and the messages printed. Every
    iteration that goes on has read one character, so the loop ends on every
    finite input. *)
Fixpoint explorarSalas (atual : Sala) (raizPistas : NoPista)
  (ht : option HashTable) (entrada : list ascii) {struct entrada}
  : NoPista * list Evento :=
  match atual with
  | SalaNULL => (raizPistas, [])
  | MkSala nome e d =>
      let '(raiz1, msgs1) := visitarSala nome e d raizPistas ht in
      match entrada with
      | [] => (raiz1, msgs1 ++ [EvEntradaInvalida])
      | op :: resto =>
          match escolher nome e d op with
          | (Continua node, msgs2) =>
              let '(raiz2, msgs3) := explorarSalas node raiz1 ht resto in
              (raiz2, msgs1 ++ msgs2 ++ msgs3)
          | (Retorna, msgs2) => (raiz1, msgs1 ++ msgs2)
          end
      end
  end.

(** A navigation input that the room [MkSala nome e d] does not accept: a
    direction whose child does not exist, or a character that is none of
    e, E, d, D, s, S. *)
Definition escolhaInvalida (e d : Sala) (op : ascii) : bool :=
  if (op =? "e")%char || (op =? "E")%char then
    match e with SalaNULL => true | _ => false end
  else if (op =? "d")%char || (op =? "D")%char then
    match d with SalaNULL => true | _ => false end
  else negb ((op =? "s")%char || (op =? "S")%char).

(** The message that reports an input that is not accepted. *)
Definition avisoInvalida (op : ascii) : Evento :=
  if (op =? "e")%char || (op =? "E")%char then EvSemEsquerda
  else if (op =? "d")%char || (op =? "D")%char then EvSemDireita
  else EvOpcaoInvalida.

(** The engine asked for a navigation choice: some menu was printed. *)
Definition solicitouEscolha (msgs : list Evento) : bool :=
  existsb (fun ev => match ev with EvMenu _ _ => true | _ => false end) msgs.

(** ** The final accusation *)

(** [auxiliarContagem(raiz, ht, acusado, &contador)]: the value of
    [*contador] after the call, from its value before. ([int]: the counter
    stays below [2^31] for any tree that fits in memory.) *)
Fixpoint auxiliarContagem (raiz : NoPista) (ht : option HashTable)
  (acusado : string) (contador : Z) : Z :=
  match raiz with
  | PistaNULL => contador
  | No p e d =>
      let c1 := auxiliarContagem e ht acusado contador in
      let c2 :=
        match encontrarSuspeito ht (Some p) with
        | Some s => if strcmp s acusado =? 0 then c1 + 1 else c1
        | None => c1
        end in
      auxiliarContagem d ht acusado c2
  end.

(** [verificarSuspeitoFinal(raizPistas, ht, acusado)]. *)
Definition verificarSuspeitoFinal (raizPistas : NoPista) (ht : option HashTable)
  (acusado : option string) : Z :=
  match acusado with
  | None => 0
  | Some a =>
      match raizPistas with
      | PistaNULL => 0
      | No _ _ _ => auxiliarContagem raizPistas ht a 0
      end
  end.

(** The two results [main] prints. *)
Inductive Resultado : Type :=
| AcusacaoSustentada     (* "Resultado: ACUSAÇÃO SUSTENTADA!" *)
| AcusacaoInsuficiente.  (* "Resultado: ACUSAÇÃO INSUFICIENTE." *)

(** The test of [main] on the count: [if (contador >= 2)]. *)
Definition resultado (contador : Z) : Resultado :=
  if contador >=? 2 then AcusacaoSustentada else AcusacaoInsuficiente.

(** Whether the index links the clue [pista] to exactly the name [acusado]. *)
Definition apontaPara (ht : option HashTable) (acusado pista : string) : bool :=
  match encontrarSuspeito ht (Some pista) with
  | Some s => String.eqb s acusado
  | None => false
  end.

(** The count the specification asks of the judge: the number of collected
    clues whose lookup in the index is exactly the accused name. *)
Definition contagemPistas (raizPistas : NoPista) (ht : option HashTable)
  (acusado : string) : Z :=
  Z.of_nat (length (List.filter (apontaPara ht acusado) (listarPistas raizPistas))).

(** ** The fixed configuration of [main] *)

(** The room tree [main] builds ([hall]). *)
Definition mansao : Sala :=
  MkSala "Hall de Entrada"
    (MkSala "Sala de Estar"
       (MkSala "Biblioteca" (criarSala "Quarto Principal") SalaNULL)
       (criarSala "Jardim de Inverno"))
    (MkSala "Cozinha"
       (MkSala "Despensa" (criarSala "Escritório") SalaNULL)
       (criarSala "Porão")).

(** The associations [main] puts in the table, in the order of the calls. *)
Definition associacoes : list (string * string) :=
  [ ("pegada molhada", "Sr. Avelar");
    ("fio de cabelo", "Sra. Beatriz");
    ("marca de luva", "Sr. Avelar");
    ("bilhete rasgado", "Srta. Clara");
    ("chave estranha", "Sra. Beatriz");
    ("mancha de tinta", "Sr. Avelar");
    ("cheiro de queimado", "Sr. Dourado");
    ("anel riscado", "Srta. Clara");
    ("nota de dívida", "Sr. Dourado") ].

(** The table of [main]: [criarHash(101)] and the nine calls. *)
Definition tabelaSuspeitos : option HashTable :=
  inserirTodasNaHash (Some (criarHash 101)) associacoes.

(** [main] from the exploration to the verdict, for the navigation input
    [entrada] and a non-empty accused name [acusado] (the line read, trimmed):
    the clue set after the exploration, the count and the result. *)
Definition julgamento (entrada : list ascii) (acusado : string)
  : NoPista * Z * Resultado :=
  let raizPistas := fst (explorarSalas mansao PistaNULL tabelaSuspeitos entrada) in
  let contador := verificarSuspeitoFinal raizPistas tabelaSuspeitos (Some acusado) in
  (raizPistas, contador, resultado contador).

(** ** The navigation-only program

    The earlier program of the repository: the room tree (without the two
    extra rooms) and an exploration loop without clues. Its [Sala] holds the
    name in a [char nome[50]] and calls its children [esquerda] and
    [direita]. *)
Module Navegacao.

Inductive Sala : Type :=
| SalaNULL : Sala
| MkSala (nome : string) (esquerda direita : Sala) : Sala.

(** [criarSala(nome)] (names shorter than 50 bytes, as all of [main]'s). *)
Definition criarSala (nome : string) : Sala := MkSala nome SalaNULL SalaNULL.

Inductive Evento : Type :=
| EvSala (nome : string)            (* "Você está na sala: **%s**" *)
| EvFim                             (* "Não há mais caminhos a seguir. Exploração encerrada!" *)
| EvMenu (esq dir : option string)  (* "Para onde deseja ir?" ... "Escolha: " *)
| EvSemEsquerda                     (* "Não existe sala à esquerda!" *)
| EvSemDireita                      (* "Não existe sala à direita!" *)
| EvSaindo                          (* "Saindo da exploração..." *)
| EvOpcaoInvalida.                  (* "Opção inválida!" *)

Definition nomeDe (s : Sala) : option string :=
  match s with
  | SalaNULL => None
  | MkSala nome _ _ => Some nome
  end.

(** [explorarSalas(atual)] on the input [entrada], one character per
    [scanf(" %c", &opcao)]: the messages printed, or [None] when the input
    ends at a prompt (the result of [scanf] is not tested, and [opcao] is
    then read without a value). *)
Fixpoint explorarSalas (atual : Sala) (entrada : list ascii) {struct entrada}
  : option (list Evento) :=
  match atual with
  | SalaNULL => Some []
  | MkSala nome SalaNULL SalaNULL => Some [EvSala nome; EvFim]
  | MkSala nome e d =>
      let msgs1 := [EvSala nome; EvMenu (nomeDe e) (nomeDe d)] in
      match entrada with
      | [] => None
      | opcao :: resto =>
          if (opcao =? "e")%char || (opcao =? "E")%char then
            match e with
            | SalaNULL =>
                option_map (fun m => msgs1 ++ EvSemEsquerda :: m)
                  (explorarSalas atual resto)
            | MkSala _ _ _ =>
                option_map (fun m => msgs1 ++ m) (explorarSalas e resto)
            end
          else if (opcao =? "d")%char || (opcao =? "D")%char then
            match d with
            | SalaNULL =>
                option_map (fun m => msgs1 ++ EvSemDireita :: m)
                  (explorarSalas atual resto)
            | MkSala _ _ _ =>
                option_map (fun m => msgs1 ++ m) (explorarSalas d resto)
            end
          else if (opcao =? "s")%char || (opcao =? "S")%char then
            Some (msgs1 ++ [EvSaindo])
          else
            option_map (fun m => msgs1 ++ EvOpcaoInvalida :: m)
              (explorarSalas atual resto)
      end
  end.

(** The names of the rooms of a tree, children first. *)
Fixpoint salas (raiz : Sala) : list string :=
  match raiz with
  | SalaNULL => []
  | MkSala nome e d => salas e ++ salas d ++ [nome]
  end.

(** The room tree its [main] builds. *)
Definition mansao : Sala :=
  MkSala "Hall de Entrada"
    (MkSala "Sala de Estar"
       (criarSala "Biblioteca") (criarSala "Jardim de Inverno"))
    (MkSala "Cozinha"
       (criarSala "Despensa") (criarSala "Porão")).

End Navegacao.

(** ** The rest of the program: release of the clue set, trimming, the final
    phase of [main] *)

(** [liberarPistas(raiz)]: the clue texts in the order in which their nodes
    are freed (post-order). *)
Fixpoint liberarPistas (raiz : NoPista) : list string :=
  match raiz with
  | PistaNULL => []
  | No q e d => liberarPistas e ++ liberarPistas d ++ [q]
  end.

(** [isspace] of <ctype.h> in the "C" locale (the program never calls
    [setlocale]): space, and the bytes 9 to 13 (tab, newline, vertical tab,
    form feed, carriage return). *)
Definition isspace (c : ascii) : bool :=
  (uchar c =? 32) || ((9 <=? uchar c) && (uchar c <=? 13)).

(** [s[len-1] == '\n' || s[len-1] == '\r'], the test of the first loop of
    [trim_inplace]. *)
Definition fimDeLinha (c : ascii) : bool :=
  (uchar c =? 10) || (uchar c =? 13).

(** The loops of [trim_inplace] that cut the end of the string,
    [while (len > 0 && f(s[len-1])) { s[len-1] = '\0'; len--; }]: the string
    without its longest suffix of characters that satisfy [f]. *)
Fixpoint cortarFim (f : ascii -> bool) (s : string) : string :=
  match s with
  | EmptyString => EmptyString
  | String c r =>
      match cortarFim f r with
      | EmptyString => if f c then EmptyString else String c EmptyString
      | String c' r' => String c (String c' r')
      end
  end.

(** The loop of [trim_inplace] that skips the start,
    [while (start[0] && isspace(start[0])) start++;], and the [memmove]: the
    string from its first character that does not satisfy [f]. *)
Fixpoint cortarInicio (f : ascii -> bool) (s : string) : string :=
  match s with
  | EmptyString => EmptyString
  | String c r => if f c then cortarInicio f r else s
  end.

(** [trim_inplace(s)]: the contents of the buffer after the call. *)
Definition trim_inplace (s : string) : string :=
  cortarFim isspace (cortarInicio isspace (cortarFim fimDeLinha s)).

(** Every character of a string satisfies [f]. *)
Fixpoint todosChars (f : ascii -> bool) (s : string) : bool :=
  match s with
  | EmptyString => true
  | String c r => f c && todosChars f r
  end.

(** The first and the last character of a string. *)
Definition primeiroChar (s : string) : option ascii :=
  match s with
  | EmptyString => None
  | String c _ => Some c
  end.

Fixpoint ultimoChar (s : string) : option ascii :=
  match s with
  | EmptyString => None
  | String c EmptyString => Some c
  | String _ r => ultimoChar r
  end.

(** A string that neither starts nor ends with a character satisfying [f]
    (the empty string included). *)
Definition semBordas (f : ascii -> bool) (s : string) : bool :=
  match primeiroChar s, ultimoChar s with
  | Some a, Some b => negb (f a) && negb (f b)
  | _, _ => true
  end.

(** The messages of [main] after the exploration. *)
Inductive EventoFinal : Type :=
| EvNenhumaPista                  (* "Você não coletou nenhuma pista." *)
| EvPistasColetadas (pistas : list string)
                                  (* "Pistas coletadas (ordem alfabética):" and the listing *)
| EvErroLeitura                   (* "Erro ao ler entrada. Encerrando." *)
| EvNenhumSuspeito                (* "Nenhum suspeito informado. Encerrando sem julgamento." *)
| EvAcusacao (acusado : string) (contador : Z)
                                  (* "Você acusou: %s", "Número de pistas ... %s: %d" *)
| EvResultado (r : Resultado)     (* the result and the line that explains it *)
| EvObrigado.                     (* "Obrigado por jogar Detective Quest (modo texto)." *)

(** The final phase of [main], from the listing of the clues to the end, for
    the clue set and the table in hand; [linha] is the buffer as [fgets] left
    it, [None] when [fgets] returned [NULL]. *)
Definition faseFinal (raizPistas : NoPista) (ht : option HashTable)
  (linha : option string) : list EventoFinal :=
  (match raizPistas with
   | PistaNULL => EvNenhumaPista
   | No _ _ _ => EvPistasColetadas (listarPistas raizPistas)
   end)
  :: match linha with
     | None => [EvErroLeitura]
     | Some buf0 =>
         let buf := trim_inplace buf0 in
         if (String.length buf =? 0)%nat then [EvNenhumSuspeito]
         else
           let contador := verificarSuspeitoFinal raizPistas ht (Some buf) in
           [EvAcusacao buf contador; EvResultado (resultado contador); EvObrigado]
     end.

(** The character read at the prompt is an exit: [op == 's' || op == 'S']. *)
Definition pedeSaida (op : ascii) : bool :=
  (op =? "s")%char || (op =? "S")%char.

(** The entries of a table are where the code looks for them: every entry
    sits in the bucket of its clue, and no chain holds a clue twice. *)
Definition tabela_inv (t : HashTable) : Prop :=
  tabela_ok t /\
  (forall i c e, ht_buckets t !! i = Some c -> In e c ->
                 Z.to_nat (indice t (he_pista e)) = i) /\
  (forall i c, ht_buckets t !! i = Some c -> List.NoDup (map he_pista c)).

(** The number of rooms on the longest way down from a room. *)
Fixpoint altura (s : Sala) : nat :=
  match s with
  | SalaNULL => 0
  | MkSala _ e d => S (Nat.max (altura e) (altura d))
  end.

(** * Properties *)

(** ** [strcmp] is a strict total order on clue texts *)

Lemma strcmp_refl (a : string) : strcmp a a = 0.
Proof.
  unfold strcmp. pose proof (String.compare_antisym a a) as H.
  destruct (String.compare a a); simpl in H; (reflexivity || discriminate).
Qed.

Lemma strcmp_eq_0 (a b : string) : strcmp a b = 0 <-> a = b.
Proof.
  split.
  - unfold strcmp. destruct (String.compare a b) eqn:E; try discriminate.
    intros _. now apply String.compare_eq_iff.
  - intros ->. apply strcmp_refl.
Qed.

Lemma strcmp_opp (a b : string) : strcmp b a = - strcmp a b.
Proof.
  unfold strcmp. rewrite (String.compare_antisym a b).
  destruct (String.compare b a); reflexivity.
Qed.

Lemma strcmp_lt_trans (a b c : string) :
  strcmp a b < 0 -> strcmp b c < 0 -> strcmp a c < 0.
Proof.
  assert (L : forall x y, strcmp x y < 0 <-> String_as_OT.lt x y).
  { intros x y. unfold strcmp, String_as_OT.lt.
    change (String_as_OT.compare x y) with (String.compare x y).
    destruct (String.compare x y); split; (lia || discriminate || reflexivity). }
  rewrite !L. apply String_as_OT.lt_strorder.
Qed.

Lemma eqb_strcmp (a b : string) : String.eqb a b = (strcmp a b =? 0).
Proof.
  destruct (String.eqb_spec a b) as [->|N].
  - now rewrite strcmp_refl.
  - symmetry. apply Z.eqb_neq. now rewrite strcmp_eq_0.
Qed.

(** The three branches of a comparison, as the code tests them. *)
Lemma strcmp_cases (p q : string) :
  (p = q /\ (strcmp p q =? 0) = true) \/
  (strcmp p q < 0 /\ (strcmp p q =? 0) = false /\ (strcmp p q <? 0) = true) \/
  (strcmp p q > 0 /\ (strcmp p q =? 0) = false /\ (strcmp p q <? 0) = false).
Proof.
  destruct (Z.eqb_spec (strcmp p q) 0) as [E|N].
  - left. split; [now apply strcmp_eq_0 | reflexivity].
  - destruct (Z.ltb_spec (strcmp p q) 0); [right; left | right; right];
      repeat split; lia.
Qed.

(** ** The clue set *)

Lemma todas_impl (P Q : string -> Prop) (t : NoPista) :
  (forall x, P x -> Q x) -> todas P t -> todas Q t.
Proof.
  intros PQ. induction t as [|q e IHe d IHd]; simpl; [trivial|].
  intros (Hq & He & Hd). auto.
Qed.

Lemma todas_Forall (P : string -> Prop) (t : NoPista) :
  todas P t <-> Forall P (listarPistas t).
Proof.
  induction t as [|q e IHe d IHd]; simpl.
  - split; constructor.
  - rewrite Forall_app, Forall_cons_iff, IHe, IHd. tauto.
Qed.

Lemma todas_inserirPista (P : string -> Prop) (t : NoPista) (p : string) :
  P p -> todas P t -> todas P (inserirPista t (Some p)).
Proof.
  intros Hp. induction t as [|q e IHe d IHd]; simpl.
  - auto.
  - intros (Hq & He & Hd).
    destruct (strcmp p q =? 0); [simpl; auto|].
    destruct (strcmp p q <? 0); simpl; auto.
Qed.

Lemma bst_inserirPista (t : NoPista) (pista : option string) :
  bst t -> bst (inserirPista t pista).
Proof.
  destruct pista as [p|]; [|destruct t; trivial].
  induction t as [|q e IHe d IHd]; simpl.
  - auto.
  - intros (He & Hd & Be & Bd).
    destruct (strcmp_cases p q) as [[_ ->]|[(L & -> & ->)|(G & -> & ->)]]; simpl.
    + auto.
    + repeat split; auto. now apply todas_inserirPista.
    + repeat split; auto. now apply todas_inserirPista.
Qed.

Lemma bst_inserirPistas (ps : list (option string)) (t : NoPista) :
  bst t -> bst (inserirPistas t ps).
Proof.
  unfold inserirPistas. revert t.
  induction ps as [|p ps IH]; simpl; intros t B; [assumption|].
  apply IH. now apply bst_inserirPista.
Qed.

Lemma StronglySorted_meio (q : string) (l1 l2 : list string) :
  StronglySorted str_lt l1 -> StronglySorted str_lt l2 ->
  Forall (fun x => strcmp x q < 0) l1 -> Forall (fun x => strcmp x q > 0) l2 ->
  StronglySorted str_lt (l1 ++ q :: l2).
Proof.
  intros S1 S2 F1 F2.
  assert (Fq : Forall (str_lt q) l2).
  { eapply List.Forall_impl; [|exact F2]. intros x Hx. unfold str_lt.
    rewrite strcmp_opp. cbv beta in Hx. lia. }
  induction S1 as [|a l1 S1 IH Ha]; simpl.
  - constructor; assumption.
  - apply Forall_cons_iff in F1 as [Haq F1].
    constructor; [now apply IH|].
    apply Forall_app. split; [assumption|].
    constructor; [exact Haq|].
    eapply List.Forall_impl; [|exact Fq].
    intros x Hx. exact (strcmp_lt_trans a q x Haq Hx).
Qed.

Lemma bst_listarPistas_lt (t : NoPista) :
  bst t -> StronglySorted str_lt (listarPistas t).
Proof.
  induction t as [|q e IHe d IHd]; simpl.
  - constructor.
  - intros (He & Hd & Be & Bd).
    apply StronglySorted_meio; auto; now apply todas_Forall.
Qed.

Lemma StronglySorted_lt_le (l : list string) :
  StronglySorted str_lt l -> StronglySorted str_le l.
Proof.
  induction 1 as [|a l S IH Ha]; constructor; [assumption|].
  eapply List.Forall_impl; [|exact Ha]. unfold str_lt, str_le. intros; lia.
Qed.

Lemma StronglySorted_lt_NoDup (l : list string) :
  StronglySorted str_lt l -> List.NoDup l.
Proof.
  induction 1 as [|a l S IH Ha]; constructor; [|assumption].
  intros Hin. rewrite List.Forall_forall in Ha. specialize (Ha a Hin).
  unfold str_lt in Ha. rewrite strcmp_refl in Ha. lia.
Qed.

Lemma buscaPista_inserirPista (t : NoPista) (p : string) :
  buscaPista (inserirPista t (Some p)) (Some p) = 1.
Proof.
  induction t as [|q e IHe d IHd]; simpl.
  - now rewrite strcmp_refl.
  - destruct (strcmp p q =? 0) eqn:E0; simpl; [now rewrite E0|].
    destruct (strcmp p q <? 0) eqn:E1; simpl; now rewrite E0, E1.
Qed.

Lemma buscaPista_mantida (t : NoPista) (p : string) (outra : option string) :
  buscaPista t (Some p) = 1 -> buscaPista (inserirPista t outra) (Some p) = 1.
Proof.
  destruct outra as [r|]; [|destruct t; trivial].
  induction t as [|q e IHe d IHd]; simpl.
  - discriminate.
  - destruct (strcmp r q =? 0); [trivial|].
    destruct (strcmp r q <? 0); simpl;
      destruct (strcmp p q =? 0); trivial;
      destruct (strcmp p q <? 0); auto.
Qed.

Lemma buscaPista_inserirPistas (ps : list (option string)) (t : NoPista) (p : string) :
  buscaPista t (Some p) = 1 -> buscaPista (inserirPistas t ps) (Some p) = 1.
Proof.
  unfold inserirPistas. revert t.
  induction ps as [|r ps IH]; simpl; intros t H; [assumption|].
  apply IH. now apply buscaPista_mantida.
Qed.

Lemma inserirPista_presente (t : NoPista) (p : string) :
  buscaPista t (Some p) = 1 -> inserirPista t (Some p) = t.
Proof.
  induction t as [|q e IHe d IHd]; simpl.
  - discriminate.
  - destruct (strcmp p q =? 0); [reflexivity|].
    destruct (strcmp p q <? 0); intros H; f_equal; auto.
Qed.

Lemma bst_buscaPista_In (t : NoPista) (p : string) :
  bst t -> In p (listarPistas t) -> buscaPista t (Some p) = 1.
Proof.
  induction t as [|q e IHe d IHd]; simpl.
  - intros _ [].
  - intros (He & Hd & Be & Bd) Hin.
    apply todas_Forall in He, Hd. rewrite List.Forall_forall in He, Hd.
    destruct (strcmp_cases p q) as [[_ ->]|[(L & -> & ->)|(G & -> & ->)]];
      [reflexivity| |].
    + apply in_app_or in Hin as [Hin|[->|Hin]]; [auto| |].
      * rewrite strcmp_refl in L. lia.
      * specialize (Hd p Hin). lia.
    + apply in_app_or in Hin as [Hin|[->|Hin]]; [| |auto].
      * specialize (He p Hin). lia.
      * rewrite strcmp_refl in G. lia.
Qed.

(** ** The suspect index *)

Lemma criarHash_ok (size : Z) : 0 < size -> tabela_ok (criarHash size).
Proof.
  intros H. split; simpl; [assumption | apply length_replicate].
Qed.

Lemma indice_dentro (t : HashTable) (p : string) :
  tabela_ok t -> (Z.to_nat (indice t p) < length (ht_buckets t))%nat.
Proof.
  intros [Hpos Hlen]. rewrite Hlen. unfold indice.
  pose proof (Z.mod_pos_bound (hash_djb2 p) (ht_size t) Hpos). lia.
Qed.

Lemma bucket_criarHash (size h : Z) : bucket (criarHash size) h = [].
Proof.
  unfold bucket, criarHash; simpl.
  destruct (replicate (Z.to_nat size) [] !! Z.to_nat h) as [c|] eqn:E;
    [|reflexivity].
  apply lookup_replicate in E as [-> _]. reflexivity.
Qed.

Lemma procurar_substituir (cur cur' : list HashEntry) (p s : string) :
  substituir cur p s = Some cur' -> procurar cur' p = Some s.
Proof.
  revert cur'. induction cur as [|e prox IH]; simpl; intros cur' H.
  - discriminate.
  - destruct (strcmp (he_pista e) p =? 0) eqn:E.
    + injection H as <-. simpl. now rewrite E.
    + destruct (substituir prox p s) as [prox'|]; [|discriminate].
      injection H as <-. simpl. rewrite E. now apply IH.
Qed.

Lemma procurar_substituir_outra (cur cur' : list HashEntry) (p s q : string) :
  p <> q -> substituir cur p s = Some cur' -> procurar cur' q = procurar cur q.
Proof.
  intros Hpq. revert cur'. induction cur as [|e prox IH]; simpl; intros cur' H.
  - discriminate.
  - destruct (strcmp (he_pista e) p =? 0) eqn:E.
    + injection H as <-. simpl.
      apply Z.eqb_eq, strcmp_eq_0 in E. rewrite E.
      destruct (strcmp p q =? 0) eqn:E'; [|reflexivity].
      apply Z.eqb_eq, strcmp_eq_0 in E'. contradiction.
    + destruct (substituir prox p s) as [prox'|]; [|discriminate].
      injection H as <-. simpl.
      destruct (strcmp (he_pista e) q =? 0); [reflexivity|]. now apply IH.
Qed.

(** One [inserirNaHash] with a table, a clue and a suspect: the table keeps
    its size and shape, the clue now leads to the suspect, and every other
    clue leads to what it led to before. *)
Lemma inserirNaHash_efeito (t : HashTable) (p s : string) :
  tabela_ok t ->
  exists t', inserirNaHash (Some t) (Some p) (Some s) = Some t' /\
    tabela_ok t' /\
    forall q, encontrarSuspeito (Some t') (Some q) =
              if String.eqb p q then Some s
              else encontrarSuspeito (Some t) (Some q).
Proof.
  intros Hok. pose proof (indice_dentro t p Hok) as Hin.
  destruct Hok as [Hpos Hlen].
  assert (Hfim : forall cur' : list HashEntry,
    procurar cur' p = Some s ->
    (forall q, p <> q -> procurar cur' q = procurar (bucket t (indice t p)) q) ->
    let t' := {| ht_buckets := <[Z.to_nat (indice t p) := cur']> (ht_buckets t);
                 ht_size := ht_size t |} in
    tabela_ok t' /\
    forall q, encontrarSuspeito (Some t') (Some q) =
              if String.eqb p q then Some s
              else encontrarSuspeito (Some t) (Some q)).
  { intros cur' Hp Hq t'. split.
    - split; simpl; [assumption | now rewrite length_insert].
    - intros q. unfold encontrarSuspeito.
      change (indice t' q) with (indice t q).
      destruct (String.eqb_spec p q) as [<-|Hne].
      + unfold bucket at 1. simpl.
        rewrite list_lookup_insert_eq by assumption. exact Hp.
      + destruct (Nat.eq_dec (Z.to_nat (indice t p)) (Z.to_nat (indice t q)))
          as [Heq|Hdif].
        * unfold bucket at 1. simpl. rewrite <- Heq.
          rewrite list_lookup_insert_eq by assumption. simpl.
          rewrite (Hq q Hne). unfold bucket. now rewrite Heq.
        * unfold bucket. simpl.
          now rewrite list_lookup_insert_ne by assumption. }
  unfold inserirNaHash.
  destruct (substituir (bucket t (indice t p)) p s) as [cur'|] eqn:E.
  - eexists; split; [reflexivity|]. apply Hfim.
    + exact (procurar_substituir _ _ _ _ E).
    + intros q Hne. exact (procurar_substituir_outra _ _ _ _ _ Hne E).
  - eexists; split; [reflexivity|]. apply Hfim.
    + simpl. now rewrite strcmp_refl.
    + intros q Hne. simpl.
      destruct (strcmp p q =? 0) eqn:E'; [|reflexivity].
      apply Z.eqb_eq, strcmp_eq_0 in E'. contradiction.
Qed.

Lemma encontrarSuspeito_inserirTodas (ops : list (string * string))
  (t : HashTable) (q : string) :
  tabela_ok t ->
  encontrarSuspeito (inserirTodasNaHash (Some t) ops) (Some q) =
  match maisRecente ops q with
  | Some s => Some s
  | None => encontrarSuspeito (Some t) (Some q)
  end.
Proof.
  unfold inserirTodasNaHash. revert t.
  induction ops as [|[p s] ops IH]; intros t Hok; [reflexivity|].
  destruct (inserirNaHash_efeito t p s Hok) as (t' & Ht' & Hok' & Hget).
  cbn [fold_left fst snd maisRecente]. rewrite Ht', (IH t' Hok'), Hget.
  destruct (maisRecente ops q); [reflexivity|].
  destruct (String.eqb p q); reflexivity.
Qed.

Lemma maisRecente_ausente (ops : list (string * string)) (q : string) :
  (forall s, ~ In (q, s) ops) -> maisRecente ops q = None.
Proof.
  induction ops as [|[p s] ops IH]; intros H; [reflexivity|].
  cbn [maisRecente]. rewrite IH.
  - destruct (String.eqb_spec p q) as [->|]; [|reflexivity].
    exfalso. apply (H s). now left.
  - intros s' Hin. apply (H s'). now right.
Qed.

Lemma maisRecente_ultima (antes depois : list (string * string)) (q s : string) :
  (forall s', ~ In (q, s') depois) ->
  maisRecente (antes ++ (q, s) :: depois) q = Some s.
Proof.
  intros H. induction antes as [|[p s0] antes IH].
  - cbn [app maisRecente]. rewrite (maisRecente_ausente depois q H).
    now rewrite String.eqb_refl.
  - cbn [app maisRecente]. cbn [app] in IH. now rewrite IH.
Qed.

(** ** The judge *)

Lemma apontaPara_strcmp (ht : option HashTable) (acusado p : string) :
  apontaPara ht acusado p =
  match encontrarSuspeito ht (Some p) with
  | Some s => strcmp s acusado =? 0
  | None => false
  end.
Proof.
  unfold apontaPara. destruct (encontrarSuspeito ht (Some p)); [|reflexivity].
  apply eqb_strcmp.
Qed.

Lemma auxiliarContagem_soma (raiz : NoPista) (ht : option HashTable)
  (acusado : string) (contador : Z) :
  auxiliarContagem raiz ht acusado contador =
  contador + contagemPistas raiz ht acusado.
Proof.
  unfold contagemPistas. revert contador.
  induction raiz as [|p e IHe d IHd]; intros contador; simpl.
  - lia.
  - rewrite IHd, IHe, List.filter_app, length_app. simpl.
    rewrite (apontaPara_strcmp ht acusado p).
    destruct (encontrarSuspeito ht (Some p)) as [s|];
      [destruct (strcmp s acusado =? 0)|]; simpl; lia.
Qed.

(** ** The exploration loop *)

Lemma buscaPista_0_ou_1 (t : NoPista) (pista : option string) :
  buscaPista t pista = 0 \/ buscaPista t pista = 1.
Proof.
  induction t as [|q e IHe d IHd]; simpl; [now left|].
  destruct pista as [p|]; [|now left].
  destruct (strcmp p q =? 0); [now right|].
  destruct (strcmp p q <? 0); assumption.
Qed.

(** The clue step at a room does nothing the second time. *)
Lemma visitarSala_de_novo (nome : string) (e d : Sala) (raiz : NoPista)
  (ht : option HashTable) :
  fst (visitarSala nome e d (fst (visitarSala nome e d raiz ht)) ht) =
  fst (visitarSala nome e d raiz ht).
Proof.
  unfold visitarSala.
  destruct (getPistaParaSala (Some nome)) as [pista|]; [|reflexivity].
  destruct (buscaPista_0_ou_1 raiz (Some pista)) as [E|E]; rewrite E; simpl.
  - now rewrite buscaPista_inserirPista.
  - now rewrite E.
Qed.

Lemma escolher_invalida (nome : string) (e d : Sala) (op : ascii) :
  escolhaInvalida e d op = true ->
  escolher nome e d op = (Continua (MkSala nome e d), [avisoInvalida op]).
Proof.
  unfold escolhaInvalida, escolher, avisoInvalida.
  destruct ((op =? "e")%char || (op =? "E")%char).
  { destruct e; [reflexivity | discriminate]. }
  destruct ((op =? "d")%char || (op =? "D")%char).
  { destruct d; [reflexivity | discriminate]. }
  destruct ((op =? "s")%char || (op =? "S")%char); [discriminate | reflexivity].
Qed.

(** A character read as a direction is not read as the exit. *)
Lemma direcao_nao_sai (op a b : ascii) :
  (op =? a)%char || (op =? b)%char = true ->
  (a =? "s")%char || (a =? "S")%char = false ->
  (b =? "s")%char || (b =? "S")%char = false ->
  (op =? "s")%char || (op =? "S")%char = false.
Proof.
  intros H Ha Hb.
  apply orb_true_iff in H as [H|H]; apply Ascii.eqb_eq in H; now subst op.
Qed.

Lemma explorarSalas_passo (nome : string) (e d : Sala) (raiz : NoPista)
  (ht : option HashTable) (op : ascii) (resto : list ascii) :
  explorarSalas (MkSala nome e d) raiz ht (op :: resto) =
  match escolher nome e d op with
  | (Continua node, msgs2) =>
      (fst (explorarSalas node (fst (visitarSala nome e d raiz ht)) ht resto),
       snd (visitarSala nome e d raiz ht) ++ msgs2 ++
       snd (explorarSalas node (fst (visitarSala nome e d raiz ht)) ht resto))
  | (Retorna, msgs2) =>
      (fst (visitarSala nome e d raiz ht),
       snd (visitarSala nome e d raiz ht) ++ msgs2)
  end.
Proof.
  cbn [explorarSalas].
  destruct (visitarSala nome e d raiz ht) as [raiz1 msgs1].
  destruct (escolher nome e d op) as [[node|] msgs2]; [|reflexivity].
  cbn [fst snd]. destruct (explorarSalas node raiz1 ht resto); reflexivity.
Qed.

Lemma explorarSalas_fim (nome : string) (e d : Sala) (raiz : NoPista)
  (ht : option HashTable) :
  explorarSalas (MkSala nome e d) raiz ht [] =
  (fst (visitarSala nome e d raiz ht),
   snd (visitarSala nome e d raiz ht) ++ [EvEntradaInvalida]).
Proof.
  cbn [explorarSalas].
  destruct (visitarSala nome e d raiz ht); reflexivity.
Qed.

(** * The claims *)

(** C1. On a table made by [criarHash] with a positive number of buckets,
    after any sequence of [inserirNaHash] calls, [encontrarSuspeito] on a clue
    returns the suspect of the most recent call for that exact clue text (the
    last write wins), and returns [NULL] for a clue text no call had. *)
Theorem C1_ultima_associacao_vence (size : Z) (ops : list (string * string))
  (pista : string) :
  0 < size ->
  encontrarSuspeito (inserirTodasNaHash (Some (criarHash size)) ops) (Some pista)
    = maisRecente ops pista /\
  (forall antes s depois,
      ops = antes ++ (pista, s) :: depois ->
      (forall s', ~ In (pista, s') depois) ->
      encontrarSuspeito (inserirTodasNaHash (Some (criarHash size)) ops)
        (Some pista) = Some s) /\
  ((forall s, ~ In (pista, s) ops) ->
   encontrarSuspeito (inserirTodasNaHash (Some (criarHash size)) ops)
     (Some pista) = None).
Proof.
  intros Hpos.
  assert (E : encontrarSuspeito
                (inserirTodasNaHash (Some (criarHash size)) ops) (Some pista)
              = maisRecente ops pista).
  { rewrite encontrarSuspeito_inserirTodas by now apply criarHash_ok.
    destruct (maisRecente ops pista); [reflexivity|].
    unfold encontrarSuspeito. now rewrite bucket_criarHash. }
  repeat split.
  - exact E.
  - intros antes s depois -> Hdep. rewrite E. now apply maisRecente_ultima.
  - intros Hnone. rewrite E. now apply maisRecente_ausente.
Qed.

Lemma C1_ultima_associacao_vence_witness :
  0 < 101 /\
  encontrarSuspeito
    (inserirTodasNaHash (Some (criarHash 101))
       [("anel riscado", "Srta. Clara"); ("fio de cabelo", "Sra. Beatriz");
        ("anel riscado", "Sr. Dourado")])
    (Some "anel riscado")
  = maisRecente
      [("anel riscado", "Srta. Clara"); ("fio de cabelo", "Sra. Beatriz");
       ("anel riscado", "Sr. Dourado")] "anel riscado".
Proof.
  split; [reflexivity|].
  apply (C1_ultima_associacao_vence 101
           [("anel riscado", "Srta. Clara"); ("fio de cabelo", "Sra. Beatriz");
            ("anel riscado", "Sr. Dourado")] "anel riscado").
  reflexivity.
Defined.

(** C2. After every insertion, starting from the empty set and for any
    sequence of [inserirPista] calls, the tree has the ordering property of a
    binary search tree, and [listarPistas] lists the clue texts in
    non-decreasing order under [strcmp]. *)
Theorem C2_bst_e_listagem_ordenada (ps : list (option string)) :
  bst (inserirPistas PistaNULL ps) /\
  StronglySorted str_le (listarPistas (inserirPistas PistaNULL ps)).
Proof.
  assert (B : bst (inserirPistas PistaNULL ps))
    by (apply bst_inserirPistas; exact I).
  split; [exact B|].
  now apply StronglySorted_lt_le, bst_listarPistas_lt.
Qed.

(** C3. For every clue set and every clue text [p], [buscaPista] finds [p]
    right after [inserirPista] of [p], and still finds it after any further
    sequence of insertions. *)
Theorem C3_busca_apos_insercao (raiz : NoPista) (p : string)
  (depois : list (option string)) :
  buscaPista (inserirPista raiz (Some p)) (Some p) = 1 /\
  buscaPista (inserirPistas (inserirPista raiz (Some p)) depois) (Some p) = 1.
Proof.
  split.
  - apply buscaPista_inserirPista.
  - apply buscaPista_inserirPistas, buscaPista_inserirPista.
Qed.

(** C4. Inserting a clue text that a clue set (a binary search tree) already
    holds returns the same tree, so [listarPistas] is unchanged in length and
    content; and the listing holds no clue text twice. *)
Theorem C4_insercao_duplicada (raiz : NoPista) (p : string) :
  bst raiz -> In p (listarPistas raiz) ->
  inserirPista raiz (Some p) = raiz /\
  listarPistas (inserirPista raiz (Some p)) = listarPistas raiz /\
  List.NoDup (listarPistas raiz).
Proof.
  intros B Hin.
  assert (E : inserirPista raiz (Some p) = raiz)
    by now apply inserirPista_presente, bst_buscaPista_In.
  repeat split.
  - exact E.
  - now rewrite E.
  - now apply StronglySorted_lt_NoDup, bst_listarPistas_lt.
Qed.

Lemma C4_insercao_duplicada_witness :
  bst (No "fio de cabelo" (No "anel riscado" PistaNULL PistaNULL) PistaNULL) /\
  In "anel riscado"
    (listarPistas
       (No "fio de cabelo" (No "anel riscado" PistaNULL PistaNULL) PistaNULL)) /\
  inserirPista
    (No "fio de cabelo" (No "anel riscado" PistaNULL PistaNULL) PistaNULL)
    (Some "anel riscado")
  = No "fio de cabelo" (No "anel riscado" PistaNULL PistaNULL) PistaNULL.
Proof.
  assert (B : bst (No "fio de cabelo"
                     (No "anel riscado" PistaNULL PistaNULL) PistaNULL))
    by (simpl; repeat split).
  assert (I : In "anel riscado"
                (listarPistas
                   (No "fio de cabelo"
                      (No "anel riscado" PistaNULL PistaNULL) PistaNULL)))
    by (simpl; now left).
  split; [exact B|]. split; [exact I|].
  exact (proj1 (C4_insercao_duplicada _ _ B I)).
Defined.

(** C5. [verificarSuspeitoFinal] returns the number of collected clues whose
    lookup in the index is exactly the accused name (byte for byte), and the
    result of [main] is "sustained" exactly when that number is at least 2,
    "insufficient" otherwise. *)
Theorem C5_contagem_e_veredito (raizPistas : NoPista) (ht : option HashTable)
  (acusado : string) :
  verificarSuspeitoFinal raizPistas ht (Some acusado)
    = contagemPistas raizPistas ht acusado /\
  (resultado (verificarSuspeitoFinal raizPistas ht (Some acusado))
     = AcusacaoSustentada <-> 2 <= contagemPistas raizPistas ht acusado) /\
  (resultado (verificarSuspeitoFinal raizPistas ht (Some acusado))
     = AcusacaoInsuficiente <-> contagemPistas raizPistas ht acusado < 2).
Proof.
  assert (E : verificarSuspeitoFinal raizPistas ht (Some acusado)
              = contagemPistas raizPistas ht acusado).
  { unfold verificarSuspeitoFinal. destruct raizPistas as [|p e d].
    - reflexivity.
    - rewrite auxiliarContagem_soma. lia. }
  rewrite E. unfold resultado.
  repeat split; destruct (Z.geb_spec (contagemPistas raizPistas ht acusado) 2);
    intros; (lia || reflexivity || discriminate).
Qed.

(** C10. The operations on a [NULL] argument: [inserirPista] with a [NULL]
    clue returns the set as it is, [buscaPista] with a [NULL] clue returns 0,
    [inserirNaHash] with a [NULL] table, clue or suspect leaves the table as
    it is, and [encontrarSuspeito] with a [NULL] table or clue returns
    [NULL]. *)
Theorem C10_argumentos_nulos (raiz : NoPista) (ht : option HashTable)
  (pista suspeito : option string) :
  inserirPista raiz None = raiz /\
  buscaPista raiz None = 0 /\
  inserirNaHash None pista suspeito = None /\
  inserirNaHash ht None suspeito = ht /\
  inserirNaHash ht pista None = ht /\
  encontrarSuspeito None pista = None /\
  encontrarSuspeito ht None = None.
Proof.
  repeat split.
  - destruct raiz; reflexivity.
  - destruct raiz; reflexivity.
  - destruct ht; reflexivity.
  - destruct ht, pista; reflexivity.
  - destruct ht; reflexivity.
Qed.

(** C6 as stated fails on the full game: at the leaf room "Porão" the engine
    reports the leaf, then shows the menu and reads a choice; it leaves the
    room only because the choice read is "s", and with another first choice it
    is still there. *)
Lemma C6_folha_solicita_escolha :
  semFilhos SalaNULL SalaNULL = true /\
  explorarSalas (criarSala "Porão") PistaNULL tabelaSuspeitos ["s"%char]
  = (No "mancha de tinta" PistaNULL PistaNULL,
     [EvSala "Porão"; EvPistaEncontrada "mancha de tinta";
      EvSuspeito "Sr. Avelar"; EvFolha; EvMenu None None; EvSaindo]) /\
  solicitouEscolha
    (snd (explorarSalas (criarSala "Porão") PistaNULL tabelaSuspeitos ["s"%char]))
  = true /\
  snd (explorarSalas (criarSala "Porão") PistaNULL tabelaSuspeitos
         ["x"%char; "s"%char])
  = [EvSala "Porão"; EvPistaEncontrada "mancha de tinta";
     EvSuspeito "Sr. Avelar"; EvFolha; EvMenu None None; EvOpcaoInvalida;
     EvSala "Porão"; EvPistaEncontrada "mancha de tinta"; EvJaColetada;
     EvFolha; EvMenu None None; EvSaindo].
Proof.
  repeat split; vm_compute; reflexivity.
Qed.

(** C6, amended. At a room without children the full game, after the clue
    step and the leaf notice, shows the menu and reads a choice: at the end of
    the input it stops, on "s" or "S" it stops, and on any other character it
    reports it and goes on in the same room with the clue set of the prompt.
    The navigation-only program is the one that stops at a leaf without
    reading a choice. *)
Theorem C6_folha (nome : string) (raiz : NoPista) (ht : option HashTable)
  (op : ascii) (resto : list ascii) :
  (exists msgs,
      snd (visitarSala nome SalaNULL SalaNULL raiz ht)
      = msgs ++ [EvFolha; EvMenu None None]) /\
  explorarSalas (criarSala nome) raiz ht []
  = (fst (visitarSala nome SalaNULL SalaNULL raiz ht),
     snd (visitarSala nome SalaNULL SalaNULL raiz ht) ++ [EvEntradaInvalida]) /\
  explorarSalas (criarSala nome) raiz ht (op :: resto)
  = (if (op =? "s")%char || (op =? "S")%char
     then (fst (visitarSala nome SalaNULL SalaNULL raiz ht),
           snd (visitarSala nome SalaNULL SalaNULL raiz ht) ++ [EvSaindo])
     else (fst (explorarSalas (criarSala nome)
                  (fst (visitarSala nome SalaNULL SalaNULL raiz ht)) ht resto),
           snd (visitarSala nome SalaNULL SalaNULL raiz ht)
           ++ avisoInvalida op
           :: snd (explorarSalas (criarSala nome)
                     (fst (visitarSala nome SalaNULL SalaNULL raiz ht)) ht resto))) /\
  (forall entrada,
      Navegacao.explorarSalas (Navegacao.criarSala nome) entrada
      = Some [Navegacao.EvSala nome; Navegacao.EvFim]).
Proof.
  split; [|split; [|split]].
  - unfold visitarSala.
    destruct (getPistaParaSala (Some nome)) as [pista|];
      [destruct (buscaPista raiz (Some pista) =? 0)|]; cbn [snd semFilhos nomeDe].
    + exists [EvSala nome; EvPistaEncontrada pista;
              match encontrarSuspeito ht (Some pista) with
              | Some s => EvSuspeito s
              | None => EvSemSuspeito
              end]. reflexivity.
    + exists [EvSala nome; EvPistaEncontrada pista; EvJaColetada]. reflexivity.
    + exists [EvSala nome; EvSemPista]. reflexivity.
  - apply explorarSalas_fim.
  - unfold criarSala. rewrite explorarSalas_passo.
    unfold escolher, avisoInvalida.
    destruct ((op =? "e")%char || (op =? "E")%char) eqn:Ee;
      [now rewrite (direcao_nao_sai op "e" "E" Ee eq_refl eq_refl)|].
    destruct ((op =? "d")%char || (op =? "D")%char) eqn:Ed;
      [now rewrite (direcao_nao_sai op "d" "D" Ed eq_refl eq_refl)|].
    destruct ((op =? "s")%char || (op =? "S")%char); reflexivity.
  - intros [|c entrada]; reflexivity.
Qed.

(** C7. At any room, a navigation input that is not accepted there (a
    direction without a child, or an unknown character) is reported and the
    loop goes on in the same room; the clue set is the one of the prompt, and
    visiting the room again does not change it. *)
Theorem C7_escolha_invalida (nome : string) (e d : Sala) (raiz : NoPista)
  (ht : option HashTable) (op : ascii) (resto : list ascii) :
  escolhaInvalida e d op = true ->
  escolher nome e d op = (Continua (MkSala nome e d), [avisoInvalida op]) /\
  fst (visitarSala nome e d (fst (visitarSala nome e d raiz ht)) ht)
  = fst (visitarSala nome e d raiz ht) /\
  explorarSalas (MkSala nome e d) raiz ht (op :: resto)
  = (fst (explorarSalas (MkSala nome e d)
            (fst (visitarSala nome e d raiz ht)) ht resto),
     snd (visitarSala nome e d raiz ht)
     ++ avisoInvalida op
     :: snd (explorarSalas (MkSala nome e d)
               (fst (visitarSala nome e d raiz ht)) ht resto)) /\
  fst (explorarSalas (MkSala nome e d) raiz ht [op])
  = fst (visitarSala nome e d raiz ht).
Proof.
  intros Hinv. pose proof (escolher_invalida nome e d op Hinv) as Hesc.
  split; [exact Hesc|]. split; [apply visitarSala_de_novo|].
  split.
  - rewrite explorarSalas_passo, Hesc. reflexivity.
  - rewrite explorarSalas_passo, Hesc, explorarSalas_fim.
    cbn [fst]. apply visitarSala_de_novo.
Qed.

Lemma C7_escolha_invalida_witness :
  escolhaInvalida (criarSala "Quarto Principal") SalaNULL "d" = true /\
  fst (explorarSalas
         (MkSala "Biblioteca" (criarSala "Quarto Principal") SalaNULL)
         PistaNULL tabelaSuspeitos ["d"%char])
  = fst (visitarSala "Biblioteca" (criarSala "Quarto Principal") SalaNULL
           PistaNULL tabelaSuspeitos).
Proof.
  split; [reflexivity|].
  apply (C7_escolha_invalida "Biblioteca" (criarSala "Quarto Principal")
           SalaNULL PistaNULL tabelaSuspeitos "d" []).
  reflexivity.
Defined.

(** C8 as stated fails on its first half: the room "Porão" has a clue. *)
Lemma C8_porao_tem_pista :
  getPistaParaSala (Some "Porão") = Some "mancha de tinta" /\
  getPistaParaSala (Some "Porão") <> None.
Proof.
  split; [vm_compute; reflexivity | discriminate].
Qed.

(** C8, amended. In the configuration of [main], "Porão" has the clue
    "mancha de tinta", which the index links to "Sr. Avelar"; the walk
    Hall de Entrada, right to Cozinha, right to Porão, exit, collects
    "pegada molhada", "cheiro de queimado" and "mancha de tinta", and accusing
    "Sr. Dourado" then counts 1 clue, an insufficient accusation. *)
Theorem C8_cenario_porao :
  getPistaParaSala (Some "Porão") = Some "mancha de tinta" /\
  encontrarSuspeito tabelaSuspeitos (Some "mancha de tinta") = Some "Sr. Avelar" /\
  snd (explorarSalas mansao PistaNULL tabelaSuspeitos
         ["d"%char; "d"%char; "s"%char])
  = [EvSala "Hall de Entrada"; EvPistaEncontrada "pegada molhada";
     EvSuspeito "Sr. Avelar"; EvMenu (Some "Sala de Estar") (Some "Cozinha");
     EvSala "Cozinha"; EvPistaEncontrada "cheiro de queimado";
     EvSuspeito "Sr. Dourado"; EvMenu (Some "Despensa") (Some "Porão");
     EvSala "Porão"; EvPistaEncontrada "mancha de tinta";
     EvSuspeito "Sr. Avelar"; EvFolha; EvMenu None None; EvSaindo] /\
  listarPistas
    (fst (explorarSalas mansao PistaNULL tabelaSuspeitos
            ["d"%char; "d"%char; "s"%char]))
  = ["cheiro de queimado"; "mancha de tinta"; "pegada molhada"] /\
  snd (julgamento ["d"%char; "d"%char; "s"%char] "Sr. Dourado")
  = AcusacaoInsuficiente /\
  snd (fst (julgamento ["d"%char; "d"%char; "s"%char] "Sr. Dourado")) = 1.
Proof.
  repeat split; vm_compute; reflexivity.
Qed.

(** C9 as stated fails on the number of rooms: the tree of [main] does not
    have 8 rooms. *)
Lemma C9_salas_nao_sao_oito :
  length (liberarSalas mansao) <> 8%nat.
Proof.
  vm_compute. discriminate.
Qed.

(** C9, amended. The room tree [main] builds has exactly 9 rooms, with 9
    different names (the tree of the navigation-only program has 7), and the
    table [main] fills has exactly 9 entries, one per association. *)
Theorem C9_nove_salas_nove_associacoes :
  length (liberarSalas mansao) = 9%nat /\
  List.NoDup (liberarSalas mansao) /\
  length (Navegacao.salas Navegacao.mansao) = 7%nat /\
  length (liberarHash tabelaSuspeitos) = 9%nat /\
  length associacoes = 9%nat /\
  (forall p s, In (p, s) associacoes ->
               encontrarSuspeito tabelaSuspeitos (Some p) = Some s).
Proof.
  split; [reflexivity|]. split.
  { simpl.
    repeat (apply List.NoDup_cons; [simpl; intuition discriminate|]).
    apply List.NoDup_nil. }
  split; [reflexivity|]. split; [vm_compute; reflexivity|].
  split; [reflexivity|].
  intros p s Hin. simpl in Hin.
  repeat destruct Hin as [Hin|Hin];
    try (injection Hin as <- <-; vm_compute; reflexivity).
  destruct Hin.
Qed.

(** * Further properties of the code *)

(** ** The clue set: what an insertion does to the listing *)

Lemma inserirPista_listagem (t : NoPista) (p : string) :
  (buscaPista t (Some p) = 1 /\ inserirPista t (Some p) = t) \/
  (buscaPista t (Some p) = 0 /\
   exists l1 l2, listarPistas t = l1 ++ l2 /\
                 listarPistas (inserirPista t (Some p)) = l1 ++ p :: l2).
Proof.
  induction t as [|q e IHe d IHd]; simpl.
  - right. split; [reflexivity|]. now exists [], [].
  - destruct (strcmp p q =? 0); [now left|].
    destruct (strcmp p q <? 0).
    + destruct IHe as [[Hb He]|[Hb (l1 & l2 & E1 & E2)]].
      * left. split; [assumption|]. now rewrite He.
      * right. split; [assumption|].
        exists l1, (l2 ++ q :: listarPistas d). simpl.
        rewrite E1, E2, <- !app_assoc. split; reflexivity.
    + destruct IHd as [[Hb Hd]|[Hb (l1 & l2 & E1 & E2)]].
      * left. split; [assumption|]. now rewrite Hd.
      * right. split; [assumption|].
        exists (listarPistas e ++ q :: l1), l2. simpl.
        rewrite E1, E2, <- !app_assoc. split; reflexivity.
Qed.

Lemma buscaPista_In (t : NoPista) (p : string) :
  buscaPista t (Some p) = 1 -> In p (listarPistas t).
Proof.
  induction t as [|q e IHe d IHd]; simpl; [discriminate|].
  destruct (strcmp_cases p q) as [[-> ->]|[(_ & -> & ->)|(_ & -> & ->)]];
    intros H; apply in_or_app; [right; now left | left; auto | right; right; auto].
Qed.

Lemma In_listarPistas_inserirPista (t : NoPista) (p q : string) :
  In q (listarPistas (inserirPista t (Some p))) <-> q = p \/ In q (listarPistas t).
Proof.
  destruct (inserirPista_listagem t p) as [[Hb ->]|[_ (l1 & l2 & -> & ->)]].
  - split; [now right|]. intros [->|H]; [now apply buscaPista_In | assumption].
  - rewrite !in_app_iff. simpl. intuition congruence.
Qed.

Lemma In_listarPistas_inserirPistas (ps : list (option string)) (t : NoPista)
  (q : string) :
  In q (listarPistas (inserirPistas t ps)) <->
  In q (listarPistas t) \/ In (Some q) ps.
Proof.
  unfold inserirPistas. revert t.
  induction ps as [|[p|] ps IH]; intros t; simpl.
  - tauto.
  - rewrite IH, In_listarPistas_inserirPista. intuition congruence.
  - rewrite IH. replace (inserirPista t None) with t by (destruct t; reflexivity).
    intuition discriminate.
Qed.

(** Two increasing lists with the same elements are the same list. *)
Lemma StronglySorted_lt_unica (l1 l2 : list string) :
  StronglySorted str_lt l1 -> StronglySorted str_lt l2 ->
  (forall x, In x l1 <-> In x l2) -> l1 = l2.
Proof.
  intros S1. revert l2.
  induction S1 as [|a l1 S1 IH Ha]; intros l2 S2 Hel.
  - destruct l2 as [|b l2]; [reflexivity|].
    exfalso. apply (proj2 (Hel b)). now left.
  - destruct S2 as [|b l2 S2 Hb].
    { exfalso. apply (proj1 (Hel a)). now left. }
    rewrite List.Forall_forall in Ha, Hb.
    assert (Irr : forall x, ~ str_lt x x).
    { intros x Hx. unfold str_lt in Hx. rewrite strcmp_refl in Hx. lia. }
    assert (Asym : forall x y, str_lt x y -> str_lt y x -> False).
    { intros x y Hxy Hyx. exact (Irr x (strcmp_lt_trans x y x Hxy Hyx)). }
    assert (Eab : a = b).
    { destruct (proj1 (Hel a) (or_introl eq_refl)) as [E|Hin]; [now symmetry|].
      destruct (proj2 (Hel b) (or_introl eq_refl)) as [E|Hin']; [assumption|].
      exfalso. exact (Asym a b (Ha b Hin') (Hb a Hin)). }
    subst b. f_equal. apply IH; [assumption|].
    intros x. split; intros Hx.
    + destruct (proj1 (Hel x) (or_intror Hx)) as [E|Hin]; [|assumption].
      subst x. exfalso. exact (Irr a (Ha a Hx)).
    + destruct (proj2 (Hel x) (or_intror Hx)) as [E|Hin]; [|assumption].
      subst x. exfalso. exact (Irr a (Hb a Hx)).
Qed.

Lemma liberarPistas_Permutation (t : NoPista) :
  Permutation (liberarPistas t) (listarPistas t).
Proof.
  induction t as [|q e IHe d IHd]; simpl; [constructor|].
  rewrite IHe, IHd. apply Permutation_app_head.
  symmetry. apply Permutation_cons_append.
Qed.

(** X1. An insertion either finds the clue text and returns the very same
    tree, or does not find it and adds it at one place of the listing,
    leaving the other clues in their order. *)
Theorem X1_inserirPista_efeito (raiz : NoPista) (p : string) :
  (buscaPista raiz (Some p) = 1 /\ inserirPista raiz (Some p) = raiz) \/
  (buscaPista raiz (Some p) = 0 /\
   exists l1 l2, listarPistas raiz = l1 ++ l2 /\
                 listarPistas (inserirPista raiz (Some p)) = l1 ++ p :: l2).
Proof. apply inserirPista_listagem. Qed.

(** X2. On a tree with the ordering property, [buscaPista] returns 1 exactly
    for the clue texts that [listarPistas] lists. *)
Theorem X2_buscaPista_exata (raiz : NoPista) (p : string) :
  bst raiz -> (buscaPista raiz (Some p) = 1 <-> In p (listarPistas raiz)).
Proof.
  intros B. split; [apply buscaPista_In | now apply bst_buscaPista_In].
Qed.

Lemma X2_buscaPista_exata_witness :
  bst (No "fio de cabelo" (No "anel riscado" PistaNULL PistaNULL) PistaNULL) /\
  (buscaPista
     (No "fio de cabelo" (No "anel riscado" PistaNULL PistaNULL) PistaNULL)
     (Some "anel riscado") = 1 <->
   In "anel riscado"
     (listarPistas
        (No "fio de cabelo" (No "anel riscado" PistaNULL PistaNULL) PistaNULL))).
Proof.
  assert (B : bst (No "fio de cabelo"
                     (No "anel riscado" PistaNULL PistaNULL) PistaNULL))
    by (simpl; repeat split).
  split; [exact B|]. exact (X2_buscaPista_exata _ "anel riscado" B).
Defined.

(** X3. After any sequence of insertions into any tree, the listing holds
    exactly the clue texts it held before and the non-[NULL] texts
    inserted. *)
Theorem X3_conteudo_apos_insercoes (raiz : NoPista) (ps : list (option string))
  (q : string) :
  In q (listarPistas (inserirPistas raiz ps)) <->
  In q (listarPistas raiz) \/ In (Some q) ps.
Proof. apply In_listarPistas_inserirPistas. Qed.

(** X4. The listing does not depend on the order of the insertions, nor on
    repetitions: two sequences that insert the same clue texts into the empty
    set give the same listing. *)
Theorem X4_listagem_independe_da_ordem (ps qs : list (option string)) :
  (forall x, In (Some x) ps <-> In (Some x) qs) ->
  listarPistas (inserirPistas PistaNULL ps)
  = listarPistas (inserirPistas PistaNULL qs).
Proof.
  intros Hel. apply StronglySorted_lt_unica.
  - apply bst_listarPistas_lt, bst_inserirPistas. exact I.
  - apply bst_listarPistas_lt, bst_inserirPistas. exact I.
  - intros x. rewrite !In_listarPistas_inserirPistas. simpl.
    specialize (Hel x). tauto.
Qed.

Lemma X4_listagem_independe_da_ordem_witness :
  listarPistas
    (inserirPistas PistaNULL
       [Some "pegada molhada"; Some "fio de cabelo"; Some "pegada molhada"])
  = listarPistas
      (inserirPistas PistaNULL [Some "fio de cabelo"; Some "pegada molhada"]).
Proof.
  apply (X4_listagem_independe_da_ordem
           [Some "pegada molhada"; Some "fio de cabelo"; Some "pegada molhada"]
           [Some "fio de cabelo"; Some "pegada molhada"]).
  intros x. simpl. tauto.
Defined.

(** X5. [liberarPistas] frees the nodes of exactly the clues that
    [listarPistas] lists, each node once. *)
Theorem X5_liberarPistas_cada_no_uma_vez (raiz : NoPista) :
  Permutation (liberarPistas raiz) (listarPistas raiz) /\
  length (liberarPistas raiz) = length (listarPistas raiz).
Proof.
  split; [apply liberarPistas_Permutation|].
  apply Permutation_length, liberarPistas_Permutation.
Qed.

(** ** The hash function *)

Lemma wrap_ulong_passo (h c : Z) :
  wrap_ulong (wrap_ulong (wrap_ulong (Z.shiftl h 5) + h) + c)
  = (33 * h + c) mod 2 ^ 64.
Proof.
  unfold wrap_ulong, ULONG_BITS. rewrite Z.shiftl_mul_pow2 by lia.
  rewrite Zplus_mod_idemp_l, <- Z.add_assoc, Zplus_mod_idemp_l. f_equal. lia.
Qed.

Lemma hash_djb2_loop_limites (s : string) (h : Z) :
  0 <= h < 2 ^ 64 -> 0 <= hash_djb2_loop h s < 2 ^ 64.
Proof.
  revert h. induction s as [|c s IH]; intros h Hh; simpl; [assumption|].
  apply IH. rewrite wrap_ulong_passo. apply Z.mod_pos_bound. lia.
Qed.

Lemma hash_djb2_loop_append (s1 s2 : string) (h : Z) :
  hash_djb2_loop h (s1 ++ s2)%string = hash_djb2_loop (hash_djb2_loop h s1) s2.
Proof.
  revert h. induction s1 as [|c s1 IH]; intros h; simpl; [reflexivity|].
  apply IH.
Qed.

(** X6. [hash_djb2] starts from 5381 and at each byte replaces the hash by
    [hash * 33 + byte] modulo [2^64] (the shift-and-add of the code is this
    product); the hash of a string is at least 0 and below [2^64], and the
    hash of two strings put together goes on from the hash of the first. *)
Theorem X6_hash_djb2 (c : ascii) (s s1 s2 : string) (h : Z) :
  hash_djb2 "" = 5381 /\
  hash_djb2_loop h (String c s)
  = hash_djb2_loop ((33 * h + uchar c) mod 2 ^ 64) s /\
  0 <= hash_djb2 s < 2 ^ 64 /\
  hash_djb2 (s1 ++ s2)%string = hash_djb2_loop (hash_djb2 s1) s2.
Proof.
  split; [reflexivity|]. split.
  - simpl. now rewrite wrap_ulong_passo.
  - split; [apply hash_djb2_loop_limites; lia|].
    apply hash_djb2_loop_append.
Qed.

(** ** The table: shape, entries, overwriting *)

Lemma substituir_chaves (cur cur' : list HashEntry) (p s : string) :
  substituir cur p s = Some cur' -> map he_pista cur' = map he_pista cur.
Proof.
  revert cur'. induction cur as [|e prox IH]; simpl; intros cur' H.
  - discriminate.
  - destruct (strcmp (he_pista e) p =? 0).
    + injection H as <-. reflexivity.
    + destruct (substituir prox p s) as [prox'|]; [|discriminate].
      injection H as <-. simpl. f_equal. now apply IH.
Qed.

Lemma substituir_None (cur : list HashEntry) (p s : string) :
  substituir cur p s = None <-> ~ In p (map he_pista cur).
Proof.
  induction cur as [|e prox IH]; simpl.
  - split; [intros _ [] | reflexivity].
  - destruct (strcmp (he_pista e) p =? 0) eqn:E.
    + apply Z.eqb_eq, strcmp_eq_0 in E. split; [discriminate|].
      intros H. exfalso. apply H. now left.
    + assert (N : he_pista e <> p).
      { intros Heq. apply strcmp_eq_0 in Heq. rewrite Heq in E. discriminate. }
      destruct (substituir prox p s) as [prox'|].
      * split; [discriminate|]. intros H. exfalso.
        assert (Hn : ~ In p (map he_pista prox)) by tauto.
        apply IH in Hn. discriminate.
      * split; [|reflexivity]. intros _ [H|H]; [contradiction|].
        now apply (proj1 IH).
Qed.

Lemma procurar_None (cur : list HashEntry) (p : string) :
  procurar cur p = None <-> ~ In p (map he_pista cur).
Proof.
  induction cur as [|e prox IH]; simpl.
  - split; [intros _ [] | reflexivity].
  - destruct (strcmp (he_pista e) p =? 0) eqn:E.
    + apply Z.eqb_eq, strcmp_eq_0 in E. split; [discriminate|].
      intros H. exfalso. apply H. now left.
    + assert (N : he_pista e <> p).
      { intros Heq. apply strcmp_eq_0 in Heq. rewrite Heq in E. discriminate. }
      rewrite IH. tauto.
Qed.

Lemma substituir_de_novo (cur cur1 : list HashEntry) (p s1 s2 : string) :
  substituir cur p s1 = Some cur1 ->
  substituir cur1 p s2 = substituir cur p s2.
Proof.
  revert cur1. induction cur as [|e prox IH]; simpl; intros cur1 H.
  - discriminate.
  - destruct (strcmp (he_pista e) p =? 0) eqn:E.
    + injection H as <-. simpl. now rewrite E.
    + destruct (substituir prox p s1) as [prox1|]; [|discriminate].
      injection H as <-. simpl. rewrite E. now rewrite (IH prox1 eq_refl).
Qed.

Lemma bucket_lookup (t : HashTable) (p : string) :
  tabela_ok t ->
  ht_buckets t !! Z.to_nat (indice t p) = Some (bucket t (indice t p)).
Proof.
  intros Hok. pose proof (indice_dentro t p Hok) as Hin.
  unfold bucket.
  destruct (lookup_lt_is_Some_2 (ht_buckets t) _ Hin) as [c ->]. reflexivity.
Qed.

Lemma bucket_inserido (t : HashTable) (h : Z) (c : list HashEntry) :
  (Z.to_nat h < length (ht_buckets t))%nat ->
  bucket {| ht_buckets := <[Z.to_nat h := c]> (ht_buckets t);
            ht_size := ht_size t |} h = c.
Proof.
  intros H. unfold bucket. cbn [ht_buckets].
  now rewrite list_lookup_insert_eq by assumption.
Qed.

Lemma length_concat_insert {A : Type} (l : list (list A)) (i : nat)
  (c c' : list A) :
  l !! i = Some c ->
  (length (concat (<[i:=c']> l)) + length c = length (concat l) + length c')%nat.
Proof.
  revert i. induction l as [|x l IH]; intros [|i] H; simpl in *;
    try discriminate.
  - injection H as ->. rewrite !length_app. lia.
  - rewrite !length_app. specialize (IH i H). lia.
Qed.

(** The clues of a whole table are different from each other when every
    chain has different clues and every entry sits in the bucket that a
    function of its clue names. *)
Lemma NoDup_concat_por_indice {A K : Type} (g : A -> K) (f : K -> nat)
  (l : list (list A)) (n : nat) :
  (forall i c e, l !! i = Some c -> In e c -> f (g e) = (n + i)%nat) ->
  (forall i c, l !! i = Some c -> List.NoDup (map g c)) ->
  List.NoDup (map g (concat l)).
Proof.
  revert n. induction l as [|c l IH]; intros n Hf Hnd; simpl.
  - constructor.
  - rewrite map_app. apply List.NoDup_app.
    + exact (Hnd 0%nat c eq_refl).
    + apply (IH (S n)).
      * intros i c' e Hi He. rewrite (Hf (S i) c' e Hi He). lia.
      * intros i c' Hi. exact (Hnd (S i) c' Hi).
    + intros k Hk Hk'.
      apply in_map_iff in Hk as (e & <- & He).
      apply in_map_iff in Hk' as (e' & Heq & He').
      apply in_concat in He' as (c' & Hc' & He').
      apply list_elem_of_In, list_elem_of_lookup_1 in Hc' as [i Hi].
      pose proof (Hf 0%nat c e eq_refl He).
      pose proof (Hf (S i) c' e' Hi He'). rewrite Heq in *. lia.
Qed.

Lemma criarHash_inv (size : Z) : 0 < size -> tabela_inv (criarHash size).
Proof.
  intros H. split; [now apply criarHash_ok|]. split.
  - intros i c e Hi He. simpl in Hi.
    apply lookup_replicate in Hi as [-> _]. destruct He.
  - intros i c Hi. simpl in Hi.
    apply lookup_replicate in Hi as [-> _]. constructor.
Qed.

Lemma inserirNaHash_inv (t : HashTable) (p s : string) :
  tabela_inv t ->
  exists t', inserirNaHash (Some t) (Some p) (Some s) = Some t' /\
             tabela_inv t' /\ ht_size t' = ht_size t.
Proof.
  intros (Hok & Hpos & Hnd).
  pose proof (indice_dentro t p Hok) as Hin.
  pose proof (bucket_lookup t p Hok) as Hlk.
  assert (Hfim : forall cur' : list HashEntry,
    (forall e, In e cur' -> Z.to_nat (indice t (he_pista e))
                            = Z.to_nat (indice t p)) ->
    List.NoDup (map he_pista cur') ->
    tabela_inv {| ht_buckets := <[Z.to_nat (indice t p) := cur']> (ht_buckets t);
                  ht_size := ht_size t |}).
  { intros cur' Hpos' Hnd'. split; [|split].
    - destruct Hok as [H0 Hlen]. split; simpl; [assumption|].
      now rewrite length_insert.
    - intros i c e Hi He. simpl in Hi.
      change (Z.to_nat (indice t (he_pista e)) = i).
      destruct (Nat.eq_dec (Z.to_nat (indice t p)) i) as [<-|Hne].
      + rewrite list_lookup_insert_eq in Hi by assumption.
        injection Hi as <-. now apply Hpos'.
      + rewrite list_lookup_insert_ne in Hi by assumption.
        exact (Hpos i c e Hi He).
    - intros i c Hi. simpl in Hi.
      destruct (Nat.eq_dec (Z.to_nat (indice t p)) i) as [<-|Hne].
      + rewrite list_lookup_insert_eq in Hi by assumption.
        now injection Hi as <-.
      + rewrite list_lookup_insert_ne in Hi by assumption.
        exact (Hnd i c Hi). }
  unfold inserirNaHash.
  destruct (substituir (bucket t (indice t p)) p s) as [cur'|] eqn:E.
  - eexists. split; [reflexivity|]. split; [|reflexivity].
    pose proof (substituir_chaves _ _ _ _ E) as Hkeys.
    apply Hfim.
    + intros e He.
      assert (Hk : In (he_pista e) (map he_pista (bucket t (indice t p)))).
      { rewrite <- Hkeys. now apply in_map. }
      apply in_map_iff in Hk as (e0 & Heq & He0). rewrite <- Heq.
      exact (Hpos _ _ e0 Hlk He0).
    + rewrite Hkeys. exact (Hnd _ _ Hlk).
  - eexists. split; [reflexivity|]. split; [|reflexivity].
    apply Hfim.
    + intros e [<-|He]; [reflexivity|]. exact (Hpos _ _ e Hlk He).
    + simpl. constructor; [now apply (substituir_None _ p s) | exact (Hnd _ _ Hlk)].
Qed.

Lemma inserirTodasNaHash_inv (ops : list (string * string)) (t : HashTable) :
  tabela_inv t ->
  exists t', inserirTodasNaHash (Some t) ops = Some t' /\
             tabela_inv t' /\ ht_size t' = ht_size t.
Proof.
  unfold inserirTodasNaHash. revert t.
  induction ops as [|[p s] ops IH]; intros t Hinv; cbn [fold_left fst snd].
  - now exists t.
  - destruct (inserirNaHash_inv t p s Hinv) as (t1 & -> & Hinv1 & Hs1).
    destruct (IH t1 Hinv1) as (t' & -> & Hinv' & Hs').
    exists t'. repeat split; [apply Hinv'..|congruence].
Qed.

(** X7. Whatever is put in a table made by [criarHash] with a positive size,
    the table keeps its number of buckets, every entry sits in the bucket of
    the hash of its clue (where [encontrarSuspeito] looks for it), and no
    clue text has two entries. *)
Theorem X7_tabela_invariantes (size : Z) (ops : list (string * string)) :
  0 < size ->
  exists t,
    inserirTodasNaHash (Some (criarHash size)) ops = Some t /\
    ht_size t = size /\
    length (ht_buckets t) = Z.to_nat size /\
    (forall i c e, ht_buckets t !! i = Some c -> In e c ->
                   Z.to_nat (hash_djb2 (he_pista e) mod size) = i) /\
    List.NoDup (map he_pista (liberarHash (Some t))).
Proof.
  intros Hpos.
  destruct (inserirTodasNaHash_inv ops (criarHash size) (criarHash_inv size Hpos))
    as (t & Ht & (Hok & Hplace & Hnd) & Hsize).
  simpl in Hsize. exists t. split; [exact Ht|]. split; [exact Hsize|].
  split; [destruct Hok as [_ Hlen]; now rewrite Hlen, Hsize|]. split.
  - intros i c e Hi He. rewrite <- Hsize. exact (Hplace i c e Hi He).
  - simpl. apply (NoDup_concat_por_indice he_pista
                    (fun k => Z.to_nat (indice t k)) (ht_buckets t) 0%nat).
    + intros i c e Hi He. exact (Hplace i c e Hi He).
    + exact Hnd.
Qed.

Lemma X7_tabela_invariantes_witness :
  0 < 101 /\
  exists t,
    inserirTodasNaHash (Some (criarHash 101)) associacoes = Some t /\
    ht_size t = 101 /\
    length (ht_buckets t) = Z.to_nat 101 /\
    (forall i c e, ht_buckets t !! i = Some c -> In e c ->
                   Z.to_nat (hash_djb2 (he_pista e) mod 101) = i) /\
    List.NoDup (map he_pista (liberarHash (Some t))).
Proof.
  split; [reflexivity|].
  apply (X7_tabela_invariantes 101 associacoes). reflexivity.
Defined.

(** X8. A call of [inserirNaHash] adds one entry when the clue had none and
    adds no entry when the clue had one (it overwrites the suspect). *)
Theorem X8_numero_de_entradas (t : HashTable) (p s : string) :
  tabela_ok t ->
  length (liberarHash (inserirNaHash (Some t) (Some p) (Some s)))
  = (length (liberarHash (Some t))
     + match encontrarSuspeito (Some t) (Some p) with
       | Some _ => 0
       | None => 1
       end)%nat.
Proof.
  intros Hok. pose proof (bucket_lookup t p Hok) as Hlk.
  unfold inserirNaHash, encontrarSuspeito, liberarHash.
  destruct (substituir (bucket t (indice t p)) p s) as [cur'|] eqn:E; simpl.
  - pose proof (length_concat_insert _ _ _ cur' Hlk) as Hlen.
    assert (Hl : length cur' = length (bucket t (indice t p))).
    { rewrite <- (length_map he_pista cur'),
        (substituir_chaves _ _ _ _ E). apply length_map. }
    destruct (procurar (bucket t (indice t p)) p) as [s0|] eqn:Ep.
    + lia.
    + exfalso. apply procurar_None in Ep.
      apply (substituir_None _ p s) in Ep. congruence.
  - pose proof (length_concat_insert _ _ _
                  ({| he_pista := p; he_suspeito := s |}
                     :: bucket t (indice t p)) Hlk) as Hlen.
    simpl in Hlen.
    destruct (procurar (bucket t (indice t p)) p) as [s0|] eqn:Ep.
    + exfalso. apply (substituir_None _ p s) in E.
      apply procurar_None in E. congruence.
    + lia.
Qed.

Lemma X8_numero_de_entradas_witness :
  tabela_ok (criarHash 101) /\
  length (liberarHash
            (inserirNaHash (Some (criarHash 101)) (Some "anel riscado")
               (Some "Srta. Clara")))
  = (length (liberarHash (Some (criarHash 101)))
     + match encontrarSuspeito (Some (criarHash 101)) (Some "anel riscado") with
       | Some _ => 0
       | None => 1
       end)%nat.
Proof.
  assert (Hok : tabela_ok (criarHash 101)) by (split; reflexivity).
  split; [exact Hok|].
  exact (X8_numero_de_entradas (criarHash 101) "anel riscado" "Srta. Clara" Hok).
Defined.

(** X9. Putting a clue twice is putting it once with the last suspect: the
    table after the two calls is the table after the second call alone. *)
Theorem X9_sobrescrever (t : HashTable) (p s1 s2 : string) :
  tabela_ok t ->
  inserirNaHash (inserirNaHash (Some t) (Some p) (Some s1)) (Some p) (Some s2)
  = inserirNaHash (Some t) (Some p) (Some s2).
Proof.
  intros Hok. pose proof (indice_dentro t p Hok) as Hin.
  unfold inserirNaHash at 2.
  destruct (substituir (bucket t (indice t p)) p s1) as [cur1|] eqn:E1.
  - unfold inserirNaHash.
    change (indice {| ht_buckets := <[Z.to_nat (indice t p) := cur1]> (ht_buckets t);
                      ht_size := ht_size t |} p) with (indice t p).
    rewrite !bucket_inserido by assumption. cbn [ht_buckets ht_size].
    rewrite (substituir_de_novo _ _ _ _ s2 E1).
    destruct (substituir (bucket t (indice t p)) p s2) as [cur2|] eqn:E2.
    + now rewrite list_insert_insert_eq.
    + apply (substituir_None _ p s2) in E2.
      apply (substituir_None _ p s1) in E2. congruence.
  - unfold inserirNaHash.
    change (indice {| ht_buckets :=
                        <[Z.to_nat (indice t p) :=
                            {| he_pista := p; he_suspeito := s1 |}
                              :: bucket t (indice t p)]> (ht_buckets t);
                      ht_size := ht_size t |} p) with (indice t p).
    rewrite !bucket_inserido by assumption. cbn [ht_buckets ht_size].
    cbn [substituir he_pista]. rewrite strcmp_refl. cbn [Z.eqb].
    apply (substituir_None _ p s1) in E1.
    apply (substituir_None _ p s2) in E1. rewrite E1.
    now rewrite list_insert_insert_eq.
Qed.

Lemma X9_sobrescrever_witness :
  tabela_ok (criarHash 101) /\
  inserirNaHash
    (inserirNaHash (Some (criarHash 101)) (Some "anel riscado")
       (Some "Srta. Clara"))
    (Some "anel riscado") (Some "Sr. Dourado")
  = inserirNaHash (Some (criarHash 101)) (Some "anel riscado")
      (Some "Sr. Dourado").
Proof.
  assert (Hok : tabela_ok (criarHash 101)) by (split; reflexivity).
  split; [exact Hok|].
  exact (X9_sobrescrever (criarHash 101) "anel riscado" "Srta. Clara"
           "Sr. Dourado" Hok).
Defined.

(** X10. What [encontrarSuspeito] returns after a sequence of calls of
    [inserirNaHash] does not depend on the number of buckets of the table. *)
Theorem X10_independe_do_tamanho (size1 size2 : Z)
  (ops : list (string * string)) (q : string) :
  0 < size1 -> 0 < size2 ->
  encontrarSuspeito (inserirTodasNaHash (Some (criarHash size1)) ops) (Some q)
  = encontrarSuspeito (inserirTodasNaHash (Some (criarHash size2)) ops) (Some q).
Proof.
  intros H1 H2.
  rewrite !encontrarSuspeito_inserirTodas by now apply criarHash_ok.
  unfold encontrarSuspeito. now rewrite !bucket_criarHash.
Qed.

Lemma X10_independe_do_tamanho_witness :
  0 < 101 /\ 0 < 1 /\
  encontrarSuspeito (inserirTodasNaHash (Some (criarHash 101)) associacoes)
    (Some "anel riscado")
  = encontrarSuspeito (inserirTodasNaHash (Some (criarHash 1)) associacoes)
      (Some "anel riscado").
Proof.
  split; [reflexivity|]. split; [reflexivity|].
  apply (X10_independe_do_tamanho 101 1 associacoes "anel riscado");
    reflexivity.
Defined.

(** ** The exploration: what it does to the clue set, how it ends *)

Lemma inserirPista_None (t : NoPista) : inserirPista t None = t.
Proof. destruct t; reflexivity. Qed.

(** The clue set after the visit of a room: the set before, with the clue of
    the room inserted when the room has one. *)
Lemma visitarSala_conjunto (nome : string) (e d : Sala) (raiz : NoPista)
  (ht : option HashTable) :
  fst (visitarSala nome e d raiz ht)
  = inserirPista raiz (getPistaParaSala (Some nome)).
Proof.
  unfold visitarSala.
  destruct (getPistaParaSala (Some nome)) as [pista|];
    [|now rewrite inserirPista_None].
  destruct (buscaPista_0_ou_1 raiz (Some pista)) as [E|E]; rewrite E; simpl.
  - reflexivity.
  - symmetry. now apply inserirPista_presente.
Qed.

Lemma escolher_casos (nome : string) (e d : Sala) (op : ascii) :
  (pedeSaida op = true /\ escolher nome e d op = (Retorna, [EvSaindo])) \/
  (pedeSaida op = false /\
   exists n' e' d' msgs,
     escolher nome e d op = (Continua (MkSala n' e' d'), msgs) /\
     (MkSala n' e' d' = MkSala nome e d \/ MkSala n' e' d' = e
      \/ MkSala n' e' d' = d) /\
     (msgs = [] \/ msgs = [avisoInvalida op])).
Proof.
  unfold escolher, avisoInvalida, pedeSaida.
  destruct ((op =? "e")%char || (op =? "E")%char) eqn:Ee.
  { right. split; [exact (direcao_nao_sai op "e" "E" Ee eq_refl eq_refl)|].
    destruct e as [|n1 e1 d1].
    - exists nome, SalaNULL, d, [EvSemEsquerda]. auto.
    - exists n1, e1, d1, []. auto. }
  destruct ((op =? "d")%char || (op =? "D")%char) eqn:Ed.
  { right. split; [exact (direcao_nao_sai op "d" "D" Ed eq_refl eq_refl)|].
    destruct d as [|n1 e1 d1].
    - exists nome, e, SalaNULL, [EvSemDireita]. auto.
    - exists n1, e1, d1, []. auto. }
  destruct ((op =? "s")%char || (op =? "S")%char).
  - now left.
  - right. split; [reflexivity|]. exists nome, e, d, [EvOpcaoInvalida]. auto.
Qed.

Lemma explorarSalas_conjunto_inv (P : NoPista -> Prop) (ht : option HashTable) :
  (forall t pista, P t -> P (inserirPista t pista)) ->
  forall entrada atual raiz,
    P raiz -> P (fst (explorarSalas atual raiz ht entrada)).
Proof.
  intros Hins entrada.
  induction entrada as [|op resto IH]; intros [|nome e d] raiz HP;
    try assumption.
  - rewrite explorarSalas_fim. cbn [fst]. rewrite visitarSala_conjunto. auto.
  - rewrite explorarSalas_passo.
    destruct (escolher nome e d op) as [[node|] msgs]; cbn [fst].
    + apply IH. rewrite visitarSala_conjunto. auto.
    + rewrite visitarSala_conjunto. auto.
Qed.

Lemma liberarSalas_filhos (nome : string) (e d node : Sala) (x : string) :
  node = MkSala nome e d \/ node = e \/ node = d ->
  In x (liberarSalas node) -> In x (liberarSalas (MkSala nome e d)).
Proof.
  intros [-> | [-> | ->]] H; [assumption| |]; simpl; rewrite !in_app_iff; auto.
Qed.

Lemma explorarSalas_origem (ht : option HashTable) (p : string)
  (entrada : list ascii) (atual : Sala) (raiz : NoPista) :
  In p (listarPistas (fst (explorarSalas atual raiz ht entrada))) ->
  In p (listarPistas raiz) \/
  exists nome, In nome (liberarSalas atual) /\
               getPistaParaSala (Some nome) = Some p.
Proof.
  assert (Hvis : forall nome e d raiz,
    In p (listarPistas (fst (visitarSala nome e d raiz ht))) ->
    In p (listarPistas raiz) \/
    exists nome', In nome' (liberarSalas (MkSala nome e d)) /\
                  getPistaParaSala (Some nome') = Some p).
  { intros nome e d r. rewrite visitarSala_conjunto.
    destruct (getPistaParaSala (Some nome)) as [pista|] eqn:G.
    - rewrite In_listarPistas_inserirPista. intros [->|H]; [right|now left].
      exists nome. split; [|assumption]. simpl. rewrite !in_app_iff.
      right. right. now left.
    - rewrite inserirPista_None. now left. }
  revert atual raiz.
  induction entrada as [|op resto IH]; intros [|nome e d] raiz;
    try (now left).
  - rewrite explorarSalas_fim. cbn [fst]. apply Hvis.
  - rewrite explorarSalas_passo.
    destruct (escolher_casos nome e d op)
      as [[_ ->]|[_ (n' & e' & d' & msgs & -> & Hnode & _)]]; cbn [fst].
    + apply Hvis.
    + intros H. apply IH in H as [H|(x & Hx & Gx)].
      * now apply Hvis.
      * right. exists x. split; [|assumption].
        now apply (liberarSalas_filhos nome e d (MkSala n' e' d')).
Qed.

Lemma explorarSalas_final (ht : option HashTable) (entrada : list ascii)
  (nome : string) (e d : Sala) (raiz : NoPista) :
  exists msgs,
    snd (explorarSalas (MkSala nome e d) raiz ht entrada)
    = msgs ++ [if existsb pedeSaida entrada then EvSaindo
               else EvEntradaInvalida].
Proof.
  revert nome e d raiz.
  induction entrada as [|op resto IH]; intros nome e d raiz.
  - rewrite explorarSalas_fim. cbn [snd existsb]. eauto.
  - rewrite explorarSalas_passo. cbn [existsb].
    destruct (escolher_casos nome e d op)
      as [[-> ->]|[-> (n' & e' & d' & msgs & -> & _ & _)]]; cbn [snd orb].
    + eauto.
    + destruct (IH n' e' d' (fst (visitarSala nome e d raiz ht))) as [m ->].
      exists (snd (visitarSala nome e d raiz ht) ++ msgs ++ m).
      now rewrite <- !app_assoc.
Qed.

Lemma explorarSalas_depois_da_saida (ht : option HashTable)
  (entrada depois : list ascii) (atual : Sala) (raiz : NoPista) :
  existsb pedeSaida entrada = true ->
  explorarSalas atual raiz ht (entrada ++ depois)
  = explorarSalas atual raiz ht entrada.
Proof.
  revert atual raiz.
  induction entrada as [|op resto IH]; intros [|nome e d] raiz H;
    try discriminate; try reflexivity.
  cbn [app]. rewrite !explorarSalas_passo. cbn [existsb] in H.
    destruct (escolher_casos nome e d op)
      as [[_ ->]|[Hs (n' & e' & d' & msgs & -> & _ & _)]]; [reflexivity|].
    rewrite Hs in H. cbn [orb] in H. now rewrite (IH _ _ H).
Qed.

Lemma pista_tem_suspeito (nome p : string) :
  getPistaParaSala (Some nome) = Some p ->
  encontrarSuspeito tabelaSuspeitos (Some p) <> None.
Proof.
  unfold getPistaParaSala.
  repeat match goal with
         | |- (if ?b then _ else _) = _ -> _ => destruct b
         end;
    intros H;
    first [discriminate H | injection H as <-; vm_compute; discriminate].
Qed.

Lemma explorarSalas_sem_EvSemSuspeito (ht : option HashTable) :
  (forall nome p, getPistaParaSala (Some nome) = Some p ->
                  encontrarSuspeito ht (Some p) <> None) ->
  forall (entrada : list ascii) (atual : Sala) (raiz : NoPista),
    ~ In EvSemSuspeito (snd (explorarSalas atual raiz ht entrada)).
Proof.
  intros Hcfg.
  assert (Hvis : forall nome e d raiz,
    ~ In EvSemSuspeito (snd (visitarSala nome e d raiz ht))).
  { intros nome e d r. unfold visitarSala.
    destruct (getPistaParaSala (Some nome)) as [pista|] eqn:G.
    - pose proof (Hcfg nome pista G) as Hs.
      destruct (encontrarSuspeito ht (Some pista)) as [s|];
        [|contradiction].
      destruct (buscaPista r (Some pista) =? 0), (semFilhos e d); simpl;
        intuition discriminate.
    - destruct (semFilhos e d); simpl; intuition discriminate. }
  induction entrada as [|op resto IH]; intros [|nome e d] raiz.
  - intros [].
  - rewrite explorarSalas_fim. cbn [snd]. rewrite in_app_iff.
    intros [H|[H|[]]]; [now apply Hvis in H | discriminate].
  - intros [].
  - rewrite explorarSalas_passo.
    destruct (escolher_casos nome e d op)
      as [[_ ->]|[_ (n' & e' & d' & msgs & -> & _ & Hm)]]; cbn [snd].
    + rewrite in_app_iff. intros [H|[H|[]]]; [now apply Hvis in H | discriminate].
    + rewrite !in_app_iff. intros [H|[H|H]].
      * now apply Hvis in H.
      * destruct Hm as [-> | ->]; [destruct H|].
        destruct H as [H|[]]. unfold avisoInvalida in H.
        destruct ((op =? "e")%char || (op =? "E")%char); [discriminate|].
        destruct ((op =? "d")%char || (op =? "D")%char); discriminate.
      * now apply IH in H.
Qed.

(** X11. An exploration keeps the ordering property of the clue set and
    never removes a clue from it, whatever the rooms, the table and the
    input. *)
Theorem X11_exploracao_preserva_conjunto (atual : Sala) (raiz : NoPista)
  (ht : option HashTable) (entrada : list ascii) :
  bst raiz ->
  bst (fst (explorarSalas atual raiz ht entrada)) /\
  (forall p, In p (listarPistas raiz) ->
             In p (listarPistas (fst (explorarSalas atual raiz ht entrada)))).
Proof.
  intros B. split.
  - apply (explorarSalas_conjunto_inv bst); [|assumption].
    intros t pista. apply bst_inserirPista.
  - intros p Hp.
    apply (explorarSalas_conjunto_inv (fun t => In p (listarPistas t)));
      [|assumption].
    intros t [q|] Ht; [|now rewrite inserirPista_None].
    apply In_listarPistas_inserirPista. now right.
Qed.

Lemma X11_exploracao_preserva_conjunto_witness :
  bst (No "anel riscado" PistaNULL PistaNULL) /\
  bst (fst (explorarSalas mansao (No "anel riscado" PistaNULL PistaNULL)
              tabelaSuspeitos ["d"%char; "s"%char])).
Proof.
  assert (B : bst (No "anel riscado" PistaNULL PistaNULL))
    by (simpl; repeat split).
  split; [exact B|].
  exact (proj1 (X11_exploracao_preserva_conjunto mansao _ tabelaSuspeitos
                  ["d"%char; "s"%char] B)).
Defined.

(** X12. Every clue in the set after an exploration was in the set before,
    or is the clue that [getPistaParaSala] gives for a room of the tree
    explored: the exploration invents no clue. *)
Theorem X12_pistas_vem_das_salas (atual : Sala) (raiz : NoPista)
  (ht : option HashTable) (entrada : list ascii) (p : string) :
  In p (listarPistas (fst (explorarSalas atual raiz ht entrada))) ->
  In p (listarPistas raiz) \/
  exists nome, In nome (liberarSalas atual) /\
               getPistaParaSala (Some nome) = Some p.
Proof. apply explorarSalas_origem. Qed.

Lemma X12_pistas_vem_das_salas_witness :
  In "cheiro de queimado" (listarPistas PistaNULL) \/
  exists nome, In nome (liberarSalas mansao) /\
               getPistaParaSala (Some nome) = Some "cheiro de queimado".
Proof.
  apply (X12_pistas_vem_das_salas mansao PistaNULL tabelaSuspeitos
           ["d"%char; "s"%char] "cheiro de queimado").
  vm_compute. tauto.
Defined.

(** X13. The clue of the room where the exploration starts is always in the
    clue set at the end, even on an empty input. *)
Theorem X13_pista_da_sala_inicial (nome : string) (e d : Sala) (raiz : NoPista)
  (ht : option HashTable) (entrada : list ascii) (p : string) :
  getPistaParaSala (Some nome) = Some p ->
  buscaPista (fst (explorarSalas (MkSala nome e d) raiz ht entrada)) (Some p) = 1.
Proof.
  intros G.
  assert (H1 : buscaPista (fst (visitarSala nome e d raiz ht)) (Some p) = 1).
  { rewrite visitarSala_conjunto, G. apply buscaPista_inserirPista. }
  destruct entrada as [|op resto].
  - now rewrite explorarSalas_fim.
  - rewrite explorarSalas_passo.
    destruct (escolher nome e d op) as [[node|] msgs]; cbn [fst];
      [|assumption].
    apply (explorarSalas_conjunto_inv (fun t => buscaPista t (Some p) = 1));
      [|assumption].
    intros t pista. apply buscaPista_mantida.
Qed.

Lemma X13_pista_da_sala_inicial_witness :
  getPistaParaSala (Some "Cozinha") = Some "cheiro de queimado" /\
  buscaPista
    (fst (explorarSalas (MkSala "Cozinha" SalaNULL SalaNULL) PistaNULL None []))
    (Some "cheiro de queimado") = 1.
Proof.
  split; [reflexivity|].
  apply (X13_pista_da_sala_inicial "Cozinha" SalaNULL SalaNULL PistaNULL None
           [] "cheiro de queimado").
  reflexivity.
Defined.

(** X14. An exploration that starts in a room ends in one of two ways: with
    the exit message when the input has an "s" or "S", and with the
    invalid-input message, at the end of the input, when it has none. *)
Theorem X14_como_termina (nome : string) (e d : Sala) (raiz : NoPista)
  (ht : option HashTable) (entrada : list ascii) :
  exists msgs,
    snd (explorarSalas (MkSala nome e d) raiz ht entrada)
    = msgs ++ [if existsb pedeSaida entrada then EvSaindo
               else EvEntradaInvalida].
Proof. apply explorarSalas_final. Qed.

(** X15. Nothing is read after the exit: the input that follows the first
    "s" or "S" changes neither the clue set nor the messages. *)
Theorem X15_nada_lido_apos_sair (atual : Sala) (raiz : NoPista)
  (ht : option HashTable) (entrada depois : list ascii) :
  existsb pedeSaida entrada = true ->
  explorarSalas atual raiz ht (entrada ++ depois)
  = explorarSalas atual raiz ht entrada.
Proof. apply explorarSalas_depois_da_saida. Qed.

Lemma X15_nada_lido_apos_sair_witness :
  existsb pedeSaida ["d"%char; "S"%char] = true /\
  explorarSalas mansao PistaNULL tabelaSuspeitos
    (["d"%char; "S"%char] ++ ["e"%char; "e"%char])
  = explorarSalas mansao PistaNULL tabelaSuspeitos ["d"%char; "S"%char].
Proof.
  split; [reflexivity|].
  apply (X15_nada_lido_apos_sair mansao PistaNULL tabelaSuspeitos
           ["d"%char; "S"%char] ["e"%char; "e"%char]).
  reflexivity.
Defined.

(** X16. With the table of [main], no room name and no input make the
    exploration print that a clue has no suspect: every clue that
    [getPistaParaSala] can give has an entry in the table. *)
Theorem X16_toda_pista_tem_suspeito (atual : Sala) (raiz : NoPista)
  (entrada : list ascii) (nome p : string) :
  ~ In EvSemSuspeito (snd (explorarSalas atual raiz tabelaSuspeitos entrada)) /\
  (getPistaParaSala (Some nome) = Some p ->
   exists s, encontrarSuspeito tabelaSuspeitos (Some p) = Some s).
Proof.
  split.
  - apply explorarSalas_sem_EvSemSuspeito. exact pista_tem_suspeito.
  - intros G. pose proof (pista_tem_suspeito nome p G) as H.
    destruct (encontrarSuspeito tabelaSuspeitos (Some p)) as [s|];
      [now exists s | contradiction].
Qed.

(** ** The judge: bounds, order, edges *)

Lemma verificarSuspeitoFinal_contagem (raiz : NoPista) (ht : option HashTable)
  (acusado : string) :
  verificarSuspeitoFinal raiz ht (Some acusado) = contagemPistas raiz ht acusado.
Proof.
  unfold verificarSuspeitoFinal. destruct raiz as [|p e d]; [reflexivity|].
  rewrite auxiliarContagem_soma. lia.
Qed.

Lemma filter_Permutation_length {A : Type} (f : A -> bool) (l l' : list A) :
  Permutation l l' ->
  length (List.filter f l) = length (List.filter f l').
Proof.
  induction 1 as [|x l l' _ IH|x y l|l l' l'' _ IH1 _ IH2]; simpl.
  - reflexivity.
  - destruct (f x); simpl; congruence.
  - destruct (f x), (f y); reflexivity.
  - congruence.
Qed.

Lemma length_filter_disjuntos {A : Type} (f g : A -> bool) (l : list A) :
  (forall x, f x = true -> g x = true -> False) ->
  (length (List.filter f l) + length (List.filter g l) <= length l)%nat.
Proof.
  intros Hfg. induction l as [|x l IH]; simpl; [lia|].
  destruct (f x) eqn:Ef, (g x) eqn:Eg; simpl; try lia.
  exfalso. exact (Hfg x Ef Eg).
Qed.

(** X17. The count of [verificarSuspeitoFinal] is never negative and never
    more than the number of clues collected; so a sustained accusation needs
    at least two collected clues. *)
Theorem X17_contagem_limitada (raiz : NoPista) (ht : option HashTable)
  (acusado : option string) :
  0 <= verificarSuspeitoFinal raiz ht acusado
    <= Z.of_nat (length (listarPistas raiz)) /\
  (resultado (verificarSuspeitoFinal raiz ht acusado) = AcusacaoSustentada ->
   (2 <= length (listarPistas raiz))%nat).
Proof.
  assert (H : 0 <= verificarSuspeitoFinal raiz ht acusado
              <= Z.of_nat (length (listarPistas raiz))).
  { destruct acusado as [a|]; [|simpl; lia].
    rewrite verificarSuspeitoFinal_contagem. unfold contagemPistas.
    pose proof (List.filter_length_le (apontaPara ht a) (listarPistas raiz)).
    lia. }
  split; [exact H|]. unfold resultado.
  destruct (Z.geb_spec (verificarSuspeitoFinal raiz ht acusado) 2);
    [lia | discriminate].
Qed.

(** X18. The count depends on the clues collected only, not on the shape of
    the tree nor on the order in which they were collected: two clue sets
    whose listings are permutations of each other give the same count. *)
Theorem X18_contagem_independe_da_ordem (raiz1 raiz2 : NoPista)
  (ht : option HashTable) (acusado : option string) :
  Permutation (listarPistas raiz1) (listarPistas raiz2) ->
  verificarSuspeitoFinal raiz1 ht acusado
  = verificarSuspeitoFinal raiz2 ht acusado.
Proof.
  intros HP. destruct acusado as [a|]; [|reflexivity].
  rewrite !verificarSuspeitoFinal_contagem. unfold contagemPistas.
  f_equal. now apply filter_Permutation_length.
Qed.

Lemma X18_contagem_independe_da_ordem_witness :
  verificarSuspeitoFinal
    (No "anel riscado" PistaNULL (No "fio de cabelo" PistaNULL PistaNULL))
    tabelaSuspeitos (Some "Srta. Clara")
  = verificarSuspeitoFinal
      (No "fio de cabelo" (No "anel riscado" PistaNULL PistaNULL) PistaNULL)
      tabelaSuspeitos (Some "Srta. Clara").
Proof.
  apply (X18_contagem_independe_da_ordem
           (No "anel riscado" PistaNULL (No "fio de cabelo" PistaNULL PistaNULL))
           (No "fio de cabelo" (No "anel riscado" PistaNULL PistaNULL) PistaNULL)
           tabelaSuspeitos (Some "Srta. Clara")).
  simpl. apply Permutation_refl.
Defined.

(** X19. The count is 0 for a [NULL] accused name, for an empty clue set and
    for a [NULL] table, whatever the other arguments. *)
Theorem X19_contagem_nula (raiz : NoPista) (ht : option HashTable)
  (acusado : option string) :
  verificarSuspeitoFinal raiz ht None = 0 /\
  verificarSuspeitoFinal PistaNULL ht acusado = 0 /\
  verificarSuspeitoFinal raiz None acusado = 0.
Proof.
  split; [reflexivity|]. split; [destruct acusado; reflexivity|].
  destruct acusado as [a|]; [|reflexivity].
  rewrite verificarSuspeitoFinal_contagem. unfold contagemPistas.
  induction (listarPistas raiz) as [|x l IH]; [reflexivity|exact IH].
Qed.

(** X20. A clue counts for one name at most: the counts for two different
    accused names add up to no more than the number of clues collected. *)
Theorem X20_pista_conta_para_um_so (raiz : NoPista) (ht : option HashTable)
  (a b : string) :
  a <> b ->
  verificarSuspeitoFinal raiz ht (Some a) + verificarSuspeitoFinal raiz ht (Some b)
  <= Z.of_nat (length (listarPistas raiz)).
Proof.
  intros Hab. rewrite !verificarSuspeitoFinal_contagem. unfold contagemPistas.
  pose proof (length_filter_disjuntos (apontaPara ht a) (apontaPara ht b)
                (listarPistas raiz)) as H.
  assert (Hd : forall x, apontaPara ht a x = true -> apontaPara ht b x = true
                         -> False).
  { intros x. unfold apontaPara.
    destruct (encontrarSuspeito ht (Some x)) as [s|]; [|discriminate].
    intros Ha Hb. apply String.eqb_eq in Ha, Hb. congruence. }
  specialize (H Hd). lia.
Qed.

Lemma X20_pista_conta_para_um_so_witness :
  "Sr. Avelar" <> "Sr. Dourado" /\
  verificarSuspeitoFinal (No "anel riscado" PistaNULL PistaNULL) tabelaSuspeitos
    (Some "Sr. Avelar")
  + verificarSuspeitoFinal (No "anel riscado" PistaNULL PistaNULL)
      tabelaSuspeitos (Some "Sr. Dourado")
  <= Z.of_nat (length (listarPistas (No "anel riscado" PistaNULL PistaNULL))).
Proof.
  assert (N : "Sr. Avelar" <> "Sr. Dourado") by discriminate.
  split; [exact N|].
  exact (X20_pista_conta_para_um_so (No "anel riscado" PistaNULL PistaNULL)
           tabelaSuspeitos "Sr. Avelar" "Sr. Dourado" N).
Defined.

(** ** Trimming the accusation *)

Lemma append_vazio_r (s : string) : (s ++ "")%string = s.
Proof. induction s as [|c s IH]; simpl; [reflexivity | now rewrite IH]. Qed.

Lemma append_associa (a b c : string) :
  ((a ++ b) ++ c)%string = (a ++ (b ++ c))%string.
Proof. induction a as [|x a IH]; simpl; [reflexivity | now rewrite IH]. Qed.

Lemma todosChars_append (f : ascii -> bool) (a b : string) :
  todosChars f (a ++ b)%string = todosChars f a && todosChars f b.
Proof.
  induction a as [|x a IH]; simpl; [reflexivity|].
  rewrite IH. now rewrite andb_assoc.
Qed.

Lemma fimDeLinha_isspace (c : ascii) : fimDeLinha c = true -> isspace c = true.
Proof.
  unfold fimDeLinha, isspace. intros H.
  apply orb_true_iff in H as [H|H]; apply Z.eqb_eq in H; rewrite H; reflexivity.
Qed.

Lemma todosChars_impl (f g : ascii -> bool) (s : string) :
  (forall c, f c = true -> g c = true) ->
  todosChars f s = true -> todosChars g s = true.
Proof.
  intros Hfg. induction s as [|c s IH]; simpl; [trivial|].
  intros H. apply andb_true_iff in H as [Hc Hs].
  apply andb_true_iff. auto.
Qed.

(** Cutting the end leaves a prefix, and what is cut satisfies [f]. *)
Lemma cortarFim_prefixo (f : ascii -> bool) (s : string) :
  exists post, s = (cortarFim f s ++ post)%string /\ todosChars f post = true.
Proof.
  induction s as [|c s (post & E & Hpost)]; simpl.
  - now exists "".
  - destruct (cortarFim f s) as [|c' r'] eqn:Ec.
    + destruct (f c) eqn:Fc.
      * exists (String c s). split; [reflexivity|]. simpl. rewrite Fc.
        simpl in E. now rewrite E.
      * exists post. simpl in *. now rewrite E at 1.
    + exists post. split; [|assumption]. simpl in *. now rewrite E at 1.
Qed.

Lemma cortarFim_ultimo (f : ascii -> bool) (s : string) (c : ascii) :
  ultimoChar (cortarFim f s) = Some c -> f c = false.
Proof.
  revert c. induction s as [|x s IH]; intros c; simpl; [discriminate|].
  destruct (cortarFim f s) as [|c' r'] eqn:Ec.
  - destruct (f x) eqn:Fx; simpl; [discriminate|]. now intros [= <-].
  - intros H. apply IH. exact H.
Qed.

Lemma cortarFim_primeiro (f : ascii -> bool) (s : string) (c : ascii) :
  primeiroChar (cortarFim f s) = Some c -> primeiroChar s = Some c.
Proof.
  destruct s as [|x s]; simpl; [discriminate|].
  destruct (cortarFim f s); [destruct (f x)|]; simpl;
    (discriminate || trivial).
Qed.

Lemma cortarInicio_sufixo (f : ascii -> bool) (s : string) :
  exists pre, s = (pre ++ cortarInicio f s)%string /\ todosChars f pre = true.
Proof.
  induction s as [|c s (pre & E & Hpre)]; simpl.
  - now exists "".
  - destruct (f c) eqn:Fc.
    + exists (String c pre). simpl. rewrite Fc, Hpre. split; [|reflexivity].
      now rewrite E at 1.
    + now exists "".
Qed.

Lemma cortarInicio_primeiro (f : ascii -> bool) (s : string) (c : ascii) :
  primeiroChar (cortarInicio f s) = Some c -> f c = false.
Proof.
  induction s as [|x s IH]; simpl; [discriminate|].
  destruct (f x) eqn:Fx; [exact IH|]. simpl. now intros [= <-].
Qed.

Lemma cortarFim_todos (f : ascii -> bool) (s : string) :
  todosChars f s = true -> cortarFim f s = "".
Proof.
  induction s as [|c s IH]; simpl; [reflexivity|].
  intros H. apply andb_true_iff in H as [Hc Hs]. now rewrite (IH Hs), Hc.
Qed.

Lemma cortarInicio_todos (f : ascii -> bool) (s : string) :
  todosChars f s = true -> cortarInicio f s = "".
Proof.
  induction s as [|c s IH]; simpl; [reflexivity|].
  intros H. apply andb_true_iff in H as [Hc Hs]. now rewrite Hc, (IH Hs).
Qed.

Lemma cortarFim_append (f : ascii -> bool) (x y : string) :
  cortarFim f (x ++ y)%string
  = match cortarFim f y with
    | EmptyString => cortarFim f x
    | String _ _ => (x ++ cortarFim f y)%string
    end.
Proof.
  induction x as [|c x IH]; simpl.
  - destruct (cortarFim f y); reflexivity.
  - rewrite IH. destruct (cortarFim f y) as [|c' r']; [reflexivity|].
    destruct x; reflexivity.
Qed.

Lemma cortarFim_fixo (f : ascii -> bool) (s : string) :
  match ultimoChar s with Some c => f c = false | None => True end ->
  cortarFim f s = s.
Proof.
  induction s as [|c s IH]; simpl; [reflexivity|].
  destruct s as [|c' s'].
  - simpl. now intros ->.
  - intros H. rewrite (IH H). reflexivity.
Qed.

Lemma cortarInicio_append (f : ascii -> bool) (pre s : string) :
  todosChars f pre = true ->
  cortarInicio f (pre ++ s)%string = cortarInicio f s.
Proof.
  induction pre as [|c pre IH]; simpl; [reflexivity|].
  intros H. apply andb_true_iff in H as [Hc Hs]. now rewrite Hc, IH.
Qed.

Lemma cortarInicio_fixo (f : ascii -> bool) (s : string) :
  match primeiroChar s with Some c => f c = false | None => True end ->
  cortarInicio f s = s.
Proof.
  destruct s as [|c s]; simpl; [reflexivity|]. now intros ->.
Qed.

Lemma semBordas_casos (f : ascii -> bool) (s : string) :
  semBordas f s = true ->
  s = "" \/
  exists a b r, s = String a r /\ f a = false /\
                ultimoChar s = Some b /\ f b = false.
Proof.
  unfold semBordas. destruct s as [|a r]; [now left|].
  intros H. right. cbn [primeiroChar] in H.
  destruct (ultimoChar (String a r)) as [b|] eqn:U.
  - apply andb_true_iff in H as [Ha Hb].
    apply negb_true_iff in Ha, Hb. now exists a, b, r.
  - exfalso. clear H. revert a U. induction r as [|x r IH]; intros a U.
    + discriminate.
    + exact (IH x U).
Qed.

Lemma ultimoChar_append (s post : string) (c : ascii) :
  ultimoChar (s ++ String c post)%string = ultimoChar (String c post).
Proof.
  induction s as [|x s IH]; [reflexivity|].
  change (String x s ++ String c post)%string
    with (String x (s ++ String c post)%string).
  cbn [ultimoChar]. rewrite IH.
  destruct (s ++ String c post)%string eqn:E; [|reflexivity].
  destruct s; discriminate.
Qed.

(** The whole of [trim_inplace] on a string given as leading blanks, a core
    without blanks at its ends, and trailing blanks. *)
Lemma trim_inplace_nucleo (pre core post : string) :
  todosChars isspace pre = true -> todosChars isspace post = true ->
  semBordas isspace core = true ->
  trim_inplace (pre ++ core ++ post)%string = core.
Proof.
  intros Hpre Hpost Hcore. unfold trim_inplace.
  destruct (semBordas_casos isspace core Hcore)
    as [->|(a & b & r & -> & Fa & Ub & Fb)].
  - cbn [append].
    assert (Hall : todosChars isspace (pre ++ post)%string = true)
      by now rewrite todosChars_append, Hpre, Hpost.
    destruct (cortarFim_prefixo fimDeLinha (pre ++ post)%string)
      as (nl & E & _).
    rewrite E, todosChars_append in Hall.
    apply andb_true_iff in Hall as [H1 _].
    now rewrite (cortarInicio_todos _ _ H1).
  - set (core := String a r) in *.
    assert (Fnl : forall c, fimDeLinha c = false \/ isspace c = true).
    { intros c. destruct (fimDeLinha c) eqn:E; [right|now left].
      now apply fimDeLinha_isspace. }
    assert (Hb' : fimDeLinha b = false).
    { destruct (Fnl b) as [H|H]; [assumption | congruence]. }
    assert (Hc1 : cortarFim fimDeLinha core = core).
    { apply cortarFim_fixo. now rewrite Ub. }
    assert (Hstep1 : exists post',
      cortarFim fimDeLinha (pre ++ core ++ post)%string
      = (pre ++ core ++ post')%string /\ todosChars isspace post' = true).
    { destruct (cortarFim_prefixo fimDeLinha post) as (nl & E & _).
      rewrite <- append_associa, cortarFim_append.
      destruct (cortarFim fimDeLinha post) as [|c' r'] eqn:Ep.
      - exists "". rewrite cortarFim_append, Hc1. unfold core at 1.
        rewrite append_vazio_r. now split.
      - exists (String c' r'). rewrite append_associa. split; [reflexivity|].
        rewrite E, todosChars_append in Hpost.
        now apply andb_true_iff in Hpost as [H1 _]. }
    destruct Hstep1 as (post' & -> & Hpost').
    rewrite (cortarInicio_append _ _ _ Hpre).
    rewrite cortarInicio_fixo by (unfold core; simpl; exact Fa).
    rewrite cortarFim_append, (cortarFim_todos _ _ Hpost').
    apply cortarFim_fixo. now rewrite Ub.
Qed.

(** Every string is leading blanks, its trimmed form, and trailing blanks. *)
Lemma trim_inplace_decompoe (s : string) :
  exists pre post,
    s = (pre ++ trim_inplace s ++ post)%string /\
    todosChars isspace pre = true /\ todosChars isspace post = true /\
    semBordas isspace (trim_inplace s) = true.
Proof.
  unfold trim_inplace.
  destruct (cortarFim_prefixo fimDeLinha s) as (nl & E1 & Hnl).
  set (s1 := cortarFim fimDeLinha s) in *.
  destruct (cortarInicio_sufixo isspace s1) as (pre & E2 & Hpre).
  set (s2 := cortarInicio isspace s1) in *.
  destruct (cortarFim_prefixo isspace s2) as (post & E3 & Hpost).
  set (s3 := cortarFim isspace s2) in *.
  exists pre, (post ++ nl)%string. repeat split.
  - rewrite E1 at 1. rewrite E2 at 1. rewrite E3 at 1.
    now rewrite !append_associa.
  - exact Hpre.
  - rewrite todosChars_append, Hpost.
    now rewrite (todosChars_impl _ _ _ fimDeLinha_isspace Hnl).
  - unfold semBordas.
    destruct (primeiroChar s3) as [a|] eqn:Pa; [|reflexivity].
    destruct (ultimoChar s3) as [b|] eqn:Ub; [|reflexivity].
    apply cortarFim_primeiro, cortarInicio_primeiro in Pa.
    apply cortarFim_ultimo in Ub. now rewrite Pa, Ub.
Qed.

Lemma trim_inplace_fixo (s : string) :
  semBordas isspace s = true -> trim_inplace s = s.
Proof.
  intros H.
  pose proof (trim_inplace_nucleo "" s "" eq_refl eq_refl H) as E.
  cbn [append] in E. now rewrite append_vazio_r in E.
Qed.

Lemma trim_inplace_vazio (s : string) :
  trim_inplace s = "" <-> todosChars isspace s = true.
Proof.
  split.
  - intros E. destruct (trim_inplace_decompoe s) as (pre & post & Hs & Hpre & Hpost & _).
    rewrite E in Hs. cbn [append] in Hs.
    now rewrite Hs, todosChars_append, Hpre, Hpost.
  - intros H.
    pose proof (trim_inplace_nucleo s "" "" H eq_refl eq_refl) as E.
    cbn [append] in E. now rewrite append_vazio_r in E.
Qed.

Lemma length_zero_vazio (s : string) :
  (String.length s =? 0)%nat = true <-> s = "".
Proof. destruct s; simpl; split; (reflexivity || discriminate). Qed.

(** X21. [trim_inplace] removes blanks at the two ends and nothing else:
    every string is some blanks, its trimmed form and some blanks, and the
    trimmed form neither starts nor ends with a blank. *)
Theorem X21_trim_so_corta_brancos (s : string) :
  exists pre post,
    s = (pre ++ trim_inplace s ++ post)%string /\
    todosChars isspace pre = true /\ todosChars isspace post = true /\
    semBordas isspace (trim_inplace s) = true.
Proof. apply trim_inplace_decompoe. Qed.

(** X22. [trim_inplace] of a text without blanks at its ends, put between
    any leading and trailing blanks, gives back the text; blanks inside the
    text are kept. *)
Theorem X22_trim_devolve_o_nucleo (pre core post : string) :
  todosChars isspace pre = true -> todosChars isspace post = true ->
  semBordas isspace core = true ->
  trim_inplace (pre ++ core ++ post)%string = core.
Proof. apply trim_inplace_nucleo. Qed.

Lemma X22_trim_devolve_o_nucleo_witness :
  todosChars isspace "  " = true /\
  todosChars isspace (String " " (String "010" (String "013" ""))) = true /\
  semBordas isspace "Sr. Avelar" = true /\
  trim_inplace
    ("  " ++ "Sr. Avelar" ++ String " " (String "010" (String "013" "")))%string
  = "Sr. Avelar".
Proof.
  split; [reflexivity|]. split; [reflexivity|]. split; [reflexivity|].
  apply (X22_trim_devolve_o_nucleo "  " "Sr. Avelar"
           (String " " (String "010" (String "013" ""))));
    reflexivity.
Defined.

(** X23. [trim_inplace] is idempotent: trimming a trimmed string changes
    nothing. *)
Theorem X23_trim_idempotente (s : string) :
  trim_inplace (trim_inplace s) = trim_inplace s.
Proof.
  destruct (trim_inplace_decompoe s) as (_ & _ & _ & _ & _ & H).
  now apply trim_inplace_fixo.
Qed.

(** X24. [trim_inplace] leaves the empty string exactly when every character
    of the string is a blank (the empty string included). *)
Theorem X24_trim_vazio (s : string) :
  trim_inplace s = "" <-> todosChars isspace s = true.
Proof. apply trim_inplace_vazio. Qed.

(** X25. The final phase of [main] on a line read: a line of blanks only ends
    the game without judgment; any other line is judged on its trimmed form,
    with the count of [contagemPistas] and the result of the threshold 2. *)
Theorem X25_fase_final (raiz : NoPista) (ht : option HashTable) (linha : string) :
  faseFinal raiz ht (Some linha)
  = (match raiz with
     | PistaNULL => EvNenhumaPista
     | No _ _ _ => EvPistasColetadas (listarPistas raiz)
     end)
    :: (if todosChars isspace linha then [EvNenhumSuspeito]
        else [EvAcusacao (trim_inplace linha)
                (contagemPistas raiz ht (trim_inplace linha));
              EvResultado
                (if 2 <=? contagemPistas raiz ht (trim_inplace linha)
                 then AcusacaoSustentada else AcusacaoInsuficiente);
              EvObrigado]).
Proof.
  unfold faseFinal. f_equal. cbv zeta.
  destruct (todosChars isspace linha) eqn:T.
  - apply trim_inplace_vazio in T. now rewrite T.
  - destruct (String.length (trim_inplace linha) =? 0)%nat eqn:L.
    + apply length_zero_vazio, trim_inplace_vazio in L. congruence.
    + rewrite verificarSuspeitoFinal_contagem. unfold resultado.
      now rewrite Z.geb_leb.
Qed.

(** X26. Blanks around the accused name do not matter: the final phase on a
    name between leading and trailing blanks is the final phase on the name
    alone. *)
Theorem X26_brancos_em_volta_do_nome (raiz : NoPista) (ht : option HashTable)
  (pre nome post : string) :
  todosChars isspace pre = true -> todosChars isspace post = true ->
  semBordas isspace nome = true ->
  faseFinal raiz ht (Some (pre ++ nome ++ post)%string)
  = faseFinal raiz ht (Some nome).
Proof.
  intros Hpre Hpost Hnome. unfold faseFinal.
  now rewrite (trim_inplace_nucleo pre nome post Hpre Hpost Hnome),
    (trim_inplace_fixo nome Hnome).
Qed.

Lemma X26_brancos_em_volta_do_nome_witness :
  todosChars isspace " " = true /\
  todosChars isspace (String "010" "") = true /\
  semBordas isspace "Sr. Dourado" = true /\
  faseFinal (No "cheiro de queimado" PistaNULL PistaNULL) tabelaSuspeitos
    (Some (" " ++ "Sr. Dourado" ++ String "010" "")%string)
  = faseFinal (No "cheiro de queimado" PistaNULL PistaNULL) tabelaSuspeitos
      (Some "Sr. Dourado").
Proof.
  split; [reflexivity|]. split; [reflexivity|]. split; [reflexivity|].
  apply (X26_brancos_em_volta_do_nome
           (No "cheiro de queimado" PistaNULL PistaNULL) tabelaSuspeitos
           " " "Sr. Dourado" (String "010" ""));
    reflexivity.
Defined.

(** ** The navigation-only program: how its exploration ends *)

(** One more round of the loop, [pre] being what the round prints. *)
Lemma Navegacao_mais_uma (pre : list Navegacao.Evento)
  (r : option (list Navegacao.Evento)) :
  (exists m, r = Some (m ++ [Navegacao.EvFim])
             \/ r = Some (m ++ [Navegacao.EvSaindo])) ->
  exists m, option_map (fun x => pre ++ x) r = Some (m ++ [Navegacao.EvFim])
            \/ option_map (fun x => pre ++ x) r
               = Some (m ++ [Navegacao.EvSaindo]).
Proof.
  intros (m & [-> | ->]); exists (pre ++ m); cbn [option_map];
    rewrite app_assoc; auto.
Qed.

(** Closes a branch of the loop that goes on with the rest of the input. *)
Ltac nav_mais_uma Hrec Hs :=
  lazymatch goal with
  | |- context [option_map (fun m => ?pre ++ ?x :: m) _] =>
      exact (Hrec Hs _ _ _ (pre ++ [x]))
  | |- context [option_map (fun m => ?pre ++ m) _] =>
      exact (Hrec Hs _ _ _ pre)
  end.

Lemma Navegacao_termina (entrada : list ascii) (nome : string)
  (e d : Navegacao.Sala) :
  existsb pedeSaida entrada = true ->
  exists m,
    Navegacao.explorarSalas (Navegacao.MkSala nome e d) entrada
    = Some (m ++ [Navegacao.EvFim])
    \/ Navegacao.explorarSalas (Navegacao.MkSala nome e d) entrada
       = Some (m ++ [Navegacao.EvSaindo]).
Proof.
  revert nome e d.
  induction entrada as [|op resto IH]; intros nome e d H; [discriminate|].
  cbn [existsb] in H.
  assert (Hfolha : forall n,
    exists m, Some [Navegacao.EvSala n; Navegacao.EvFim]
              = Some (m ++ [Navegacao.EvFim])
              \/ Some [Navegacao.EvSala n; Navegacao.EvFim]
                 = Some (m ++ [Navegacao.EvSaindo])).
  { intros n. exists [Navegacao.EvSala n]. now left. }
  assert (Hsai : forall pre : list Navegacao.Evento,
    exists m, Some (pre ++ [Navegacao.EvSaindo]) = Some (m ++ [Navegacao.EvFim])
              \/ Some (pre ++ [Navegacao.EvSaindo])
                 = Some (m ++ [Navegacao.EvSaindo])).
  { intros pre. exists pre. now right. }
  assert (Hrec : pedeSaida op = false ->
    forall n' e' d' (pre : list Navegacao.Evento),
    exists m,
      option_map (fun x => pre ++ x)
        (Navegacao.explorarSalas (Navegacao.MkSala n' e' d') resto)
      = Some (m ++ [Navegacao.EvFim])
      \/ option_map (fun x => pre ++ x)
           (Navegacao.explorarSalas (Navegacao.MkSala n' e' d') resto)
         = Some (m ++ [Navegacao.EvSaindo])).
  { intros Hs n' e' d' pre. rewrite Hs in H. cbn [orb] in H.
    apply Navegacao_mais_uma, IH, H. }
  destruct e as [|n1 e1 d1], d as [|n2 e2 d2];
    cbn [Navegacao.explorarSalas]; cbv zeta; [apply Hfolha| | |];
    (destruct ((op =? "e")%char || (op =? "E")%char) eqn:Ee;
     [nav_mais_uma Hrec (direcao_nao_sai op "e" "E" Ee eq_refl eq_refl)|];
     destruct ((op =? "d")%char || (op =? "D")%char) eqn:Ed;
     [nav_mais_uma Hrec (direcao_nao_sai op "d" "D" Ed eq_refl eq_refl)|];
     fold (pedeSaida op);
     destruct (pedeSaida op); [apply Hsai | nav_mais_uma Hrec (@eq_refl bool false)]).
Qed.

(** X27. In the navigation-only program, an input that has an "s" or "S"
    always brings the exploration to an end, at a leaf or at the exit: the
    input is never read past its end, and the last message is the one of the
    leaf or the one of the exit. *)
Theorem X27_navegacao_termina (entrada : list ascii) (nome : string)
  (e d : Navegacao.Sala) :
  existsb pedeSaida entrada = true ->
  exists m,
    Navegacao.explorarSalas (Navegacao.MkSala nome e d) entrada
    = Some (m ++ [Navegacao.EvFim])
    \/ Navegacao.explorarSalas (Navegacao.MkSala nome e d) entrada
       = Some (m ++ [Navegacao.EvSaindo]).
Proof. apply Navegacao_termina. Qed.

Lemma X27_navegacao_termina_witness :
  existsb pedeSaida ["x"%char; "e"%char; "s"%char] = true /\
  exists m,
    Navegacao.explorarSalas
      (Navegacao.MkSala "Hall de Entrada"
         (Navegacao.MkSala "Sala de Estar"
            (Navegacao.criarSala "Biblioteca")
            (Navegacao.criarSala "Jardim de Inverno"))
         (Navegacao.MkSala "Cozinha"
            (Navegacao.criarSala "Despensa") (Navegacao.criarSala "Porão")))
      ["x"%char; "e"%char; "s"%char]
    = Some (m ++ [Navegacao.EvFim])
    \/ Navegacao.explorarSalas
         (Navegacao.MkSala "Hall de Entrada"
            (Navegacao.MkSala "Sala de Estar"
               (Navegacao.criarSala "Biblioteca")
               (Navegacao.criarSala "Jardim de Inverno"))
            (Navegacao.MkSala "Cozinha"
               (Navegacao.criarSala "Despensa") (Navegacao.criarSala "Porão")))
         ["x"%char; "e"%char; "s"%char]
       = Some (m ++ [Navegacao.EvSaindo]).
Proof.
  split; [reflexivity|].
  apply (X27_navegacao_termina ["x"%char; "e"%char; "s"%char]).
  reflexivity.
Defined.

(** ** The exploration only goes down *)

Lemma length_inserirPista (t : NoPista) (pista : option string) :
  (length (listarPistas (inserirPista t pista))
   <= S (length (listarPistas t)))%nat.
Proof.
  destruct pista as [p|]; [|rewrite inserirPista_None; lia].
  destruct (inserirPista_listagem t p) as [[_ ->]|[_ (l1 & l2 & -> & ->)]].
  - lia.
  - rewrite !length_app. simpl. lia.
Qed.

Lemma explorarSalas_altura (ht : option HashTable) (entrada : list ascii)
  (nome : string) (e d : Sala) (raiz : NoPista) :
  (length (listarPistas (fst (explorarSalas (MkSala nome e d) raiz ht entrada)))
   <= length (listarPistas (fst (visitarSala nome e d raiz ht)))
      + Nat.max (altura e) (altura d))%nat.
Proof.
  revert nome e d raiz.
  induction entrada as [|op resto IH]; intros nome e d raiz.
  - rewrite explorarSalas_fim. cbn [fst]. lia.
  - rewrite explorarSalas_passo.
    destruct (escolher_casos nome e d op)
      as [[_ ->]|[_ (n' & e' & d' & msgs & -> & Hnode & _)]]; cbn [fst];
      [lia|].
    specialize (IH n' e' d' (fst (visitarSala nome e d raiz ht))).
    destruct Hnode as [Hn | [Hn | Hn]].
    + injection Hn as -> -> ->. rewrite visitarSala_de_novo in IH. exact IH.
    + pose proof (length_inserirPista (fst (visitarSala nome e d raiz ht))
                    (getPistaParaSala (Some n'))) as Hl.
      rewrite <- (visitarSala_conjunto n' e' d' _ ht) in Hl.
      subst e. cbn [altura]. lia.
    + pose proof (length_inserirPista (fst (visitarSala nome e d raiz ht))
                    (getPistaParaSala (Some n'))) as Hl.
      rewrite <- (visitarSala_conjunto n' e' d' _ ht) in Hl.
      subst d. cbn [altura]. lia.
Qed.

(** X28. The exploration only goes down the tree, so it adds to the clue set
    at most one clue per level: the number of clues afterwards is at most the
    number before plus the height of the tree explored. From the empty set,
    the house of [main] gives at most 4 clues. *)
Theorem X28_no_maximo_uma_pista_por_nivel (atual : Sala) (raiz : NoPista)
  (ht : option HashTable) (entrada : list ascii) :
  (length (listarPistas (fst (explorarSalas atual raiz ht entrada)))
   <= length (listarPistas raiz) + altura atual)%nat /\
  (length (listarPistas (fst (explorarSalas mansao PistaNULL ht entrada)))
   <= 4)%nat.
Proof.
  assert (G : forall s r,
    (length (listarPistas (fst (explorarSalas s r ht entrada)))
     <= length (listarPistas r) + altura s)%nat).
  { intros [|nome e d] r.
    - destruct entrada; simpl; lia.
    - pose proof (explorarSalas_altura ht entrada nome e d r) as H.
      pose proof (length_inserirPista r (getPistaParaSala (Some nome))) as Hl.
      rewrite <- (visitarSala_conjunto nome e d r ht) in Hl.
      cbn [altura]. lia. }
  split; [apply G|]. exact (G mansao PistaNULL).
Qed.

(** ** The clue of each room *)

Lemma strcmp_eqb_eq (a b : string) : (strcmp a b =? 0) = true -> a = b.
Proof. intros H. now apply strcmp_eq_0, Z.eqb_eq. Qed.

(** X29. [getPistaParaSala] gives different clues for different rooms: a clue
    text is the clue of one room name only. *)
Theorem X29_uma_sala_por_pista (nome1 nome2 p : string) :
  getPistaParaSala (Some nome1) = Some p ->
  getPistaParaSala (Some nome2) = Some p ->
  nome1 = nome2.
Proof.
  unfold getPistaParaSala.
  repeat match goal with
         | |- (if ?b then _ else _) = _ -> _ =>
             let E := fresh "E" in
             destruct b eqn:E; [apply strcmp_eqb_eq in E; subst|clear E]
         end;
    intros H1; first [discriminate H1 | injection H1 as <-];
    repeat match goal with
           | |- (if ?b then _ else _) = _ -> _ =>
               let E := fresh "E" in
               destruct b eqn:E; [apply strcmp_eqb_eq in E; subst|clear E]
           end;
    intros H2; first [discriminate H2 | reflexivity].
Qed.

Lemma X29_uma_sala_por_pista_witness :
  getPistaParaSala (Some "Cozinha") = Some "cheiro de queimado" /\
  "Cozinha" = "Cozinha".
Proof.
  assert (G : getPistaParaSala (Some "Cozinha") = Some "cheiro de queimado")
    by reflexivity.
  split; [exact G|].
  exact (X29_uma_sala_por_pista "Cozinha" "Cozinha" "cheiro de queimado" G G).
Defined.

(** ** The game of [main]: who can be convicted *)

Lemma filter_nenhum {A : Type} (f : A -> bool) (l : list A) :
  (forall x, In x l -> f x = false) -> List.filter f l = [].
Proof.
  induction l as [|x l IH]; intros H; simpl; [reflexivity|].
  rewrite (H x (or_introl eq_refl)). apply IH. intros y Hy. apply H. now right.
Qed.

Lemma filter_no_maximo_um {A : Type} (f : A -> bool) (l : list A) (c : A) :
  List.NoDup l -> (forall x, In x l -> f x = true -> x = c) ->
  (length (List.filter f l) <= 1)%nat.
Proof.
  induction 1 as [|x l Hx Hnd IH]; intros Hc; simpl; [lia|].
  destruct (f x) eqn:Fx.
  - rewrite filter_nenhum; [simpl; lia|].
    intros y Hy. destruct (f y) eqn:Fy; [|reflexivity]. exfalso.
    assert (x = c) by (apply Hc; [now left | assumption]).
    assert (y = c) by (apply Hc; [now right | assumption]).
    congruence.
  - apply IH. intros y Hy. apply Hc. now right.
Qed.

(** Whatever the input, the clues linked to "Sra. Beatriz" that an exploration
    of the house of [main] collects are all one and the same clue. *)
Lemma beatriz_uma_pista (entrada : list ascii) (raiz : NoPista) :
  (forall p, In p (listarPistas raiz) -> p = "pegada molhada") ->
  exists c, forall p,
    In p (listarPistas (fst (explorarSalas mansao raiz tabelaSuspeitos entrada))) ->
    apontaPara tabelaSuspeitos "Sra. Beatriz" p = true -> p = c.
Proof.
  pose (E := MkSala "Sala de Estar"
               (MkSala "Biblioteca" (criarSala "Quarto Principal") SalaNULL)
               (criarSala "Jardim de Inverno")).
  pose (D := MkSala "Cozinha"
               (MkSala "Despensa" (criarSala "Escritório") SalaNULL)
               (criarSala "Porão")).
  change mansao with (MkSala "Hall de Entrada" E D).
  assert (Hvis : forall r,
    (forall p, In p (listarPistas r) -> p = "pegada molhada") ->
    forall p,
      In p (listarPistas (fst (visitarSala "Hall de Entrada" E D r tabelaSuspeitos)))
      -> p = "pegada molhada").
  { intros r Hr p. rewrite visitarSala_conjunto.
    change (getPistaParaSala (Some "Hall de Entrada"))
      with (Some "pegada molhada").
    rewrite In_listarPistas_inserirPista. intros [->|H]; [reflexivity|auto]. }
  assert (Hsub : forall (node : Sala) (c : string) r resto,
    (forall p, In p (listarPistas r) -> p = "pegada molhada") ->
    (forall nome p, In nome (liberarSalas node) ->
                    getPistaParaSala (Some nome) = Some p ->
                    apontaPara tabelaSuspeitos "Sra. Beatriz" p = true -> p = c) ->
    forall p,
      In p (listarPistas (fst (explorarSalas node r tabelaSuspeitos resto))) ->
      apontaPara tabelaSuspeitos "Sra. Beatriz" p = true -> p = c).
  { intros node c r resto Hr Hnode p Hin Hap.
    apply explorarSalas_origem in Hin as [Hin|(nome & Hn & G)].
    - rewrite (Hr p Hin) in Hap. vm_compute in Hap. discriminate Hap.
    - exact (Hnode nome p Hn G Hap). }
  revert raiz.
  induction entrada as [|op resto IH]; intros raiz Hr.
  - exists "pegada molhada". intros p Hin _.
    rewrite explorarSalas_fim in Hin. exact (Hvis raiz Hr p Hin).
  - pose proof (Hvis raiz Hr) as Hr1.
    destruct (escolher_casos "Hall de Entrada" E D op)
      as [[_ Hesc]|[_ (n' & e' & d' & msgs & Hesc & Hnode & _)]].
    + exists "pegada molhada". intros p Hin _.
      rewrite explorarSalas_passo, Hesc in Hin. exact (Hr1 p Hin).
    + destruct Hnode as [Hn | [Hn | Hn]].
      * destruct (IH _ Hr1) as [c Hc]. exists c. intros p Hin Hap.
        rewrite explorarSalas_passo, Hesc, Hn in Hin. exact (Hc p Hin Hap).
      * exists "fio de cabelo". intros p Hin Hap.
        rewrite explorarSalas_passo, Hesc, Hn in Hin. cbn [fst] in Hin.
        apply (Hsub E "fio de cabelo" _ resto Hr1); [|assumption..].
        intros nome q Hnome G Hq. vm_compute in Hnome.
        repeat destruct Hnome as [<-|Hnome]; try contradiction;
          vm_compute in G; injection G as <-;
          first [reflexivity | vm_compute in Hq; discriminate Hq].
      * exists "chave estranha". intros p Hin Hap.
        rewrite explorarSalas_passo, Hesc, Hn in Hin. cbn [fst] in Hin.
        apply (Hsub D "chave estranha" _ resto Hr1); [|assumption..].
        intros nome q Hnome G Hq. vm_compute in Hnome.
        repeat destruct Hnome as [<-|Hnome]; try contradiction;
          vm_compute in G; injection G as <-;
          first [reflexivity | vm_compute in Hq; discriminate Hq].
Qed.

(** X30. In the game of [main], no input convicts "Sra. Beatriz": her two
    clues are in rooms of different branches and the exploration never goes
    back up, so the accusation is always insufficient; each of the other three
    suspects is convicted by some walk. *)
Theorem X30_beatriz_nunca_condenada (entrada : list ascii) :
  snd (julgamento entrada "Sra. Beatriz") = AcusacaoInsuficiente /\
  snd (julgamento ["e"%char; "d"%char; "s"%char] "Sr. Avelar")
  = AcusacaoSustentada /\
  snd (julgamento ["e"%char; "e"%char; "e"%char; "s"%char] "Srta. Clara")
  = AcusacaoSustentada /\
  snd (julgamento ["d"%char; "e"%char; "e"%char; "s"%char] "Sr. Dourado")
  = AcusacaoSustentada.
Proof.
  split; [|repeat split; vm_compute; reflexivity].
  unfold julgamento. cbv zeta. cbn [snd fst].
  rewrite verificarSuspeitoFinal_contagem. unfold contagemPistas.
  destruct (beatriz_uma_pista entrada PistaNULL) as [c Hc];
    [intros p []|].
  assert (Hnd : List.NoDup
    (listarPistas (fst (explorarSalas mansao PistaNULL tabelaSuspeitos entrada)))).
  { apply StronglySorted_lt_NoDup, bst_listarPistas_lt.
    apply (explorarSalas_conjunto_inv bst); [|exact I].
    intros t pista. apply bst_inserirPista. }
  pose proof (filter_no_maximo_um (apontaPara tabelaSuspeitos "Sra. Beatriz")
                _ c Hnd Hc) as Hle.
  unfold resultado.
  destruct (Z.geb_spec
              (Z.of_nat
                 (length
                    (List.filter (apontaPara tabelaSuspeitos "Sra. Beatriz")
                       (listarPistas
                          (fst (explorarSalas mansao PistaNULL tabelaSuspeitos
                                  entrada))))))
              2); [lia | reflexivity].
Qed.
